(** * gpupgrade: the hub's agent coordination, fan-out and configuration files

    A shallow embedding of the parts of gpupgrade that the specification's
    claims are about, and of the functions around them:

    - [hub]: [Server.AgentConns], [EnsureConnsAreReady], [Server.StopAgents],
      [Server.Stop], [Server.Start], [RestartAgents], [Server.RestartAgents]
      and [AgentHosts]; [Server.StopServices];
    - [config]: [Config.Save] and [Create];
    - [cli/commanders]: [CreateTemporaryConfigFile], [CreateConfigFile] and
      the per-database fan-out of [GenerateDataMigrationScripts];
      [StartHub], [IsHubRunning] and [ArchiveDataMigrationScriptsPrompt];
    - [cli/commands]: [TemporaryConfig.Load] and [LoadConfig]; the flag
      parsers [parsePorts] and [parseMode].

    Go values are modelled as the code has them: [int] as [Z], strings as
    [string], a nil [error] as [None], slices as lists (the nil slice is
    [[]]), [map[string]bool] as [gmap string bool], a buffered channel as the
    values it holds (their number, for a channel of signals).  Everything outside the process (dialling, RPC
    replies, connection states, the order of a map iteration, the order in
    which goroutines finish) is a parameter of the operation that observes
    it. *)

From Stdlib Require Import ZArith Strings.String Strings.Ascii Numbers.DecimalString
  Numbers.DecimalPos.
From stdpp Require Import gmap strings list fin_maps sorting.

Local Open Scope string_scope.
Local Open Scope Z_scope.
Local Open Scope list_scope.

(** ** Strings and formatting *)

(** [strconv.Itoa] and the [%d] verb. *)
Definition Itoa (n : Z) : string := NilZero.string_of_int (Z.to_int n).

(** [strings.Join]. *)
Fixpoint Join (elems : list string) (sep : string) : string :=
  match elems with
  | [] => ""
  | [e] => e
  | e :: rest => e +:+ sep +:+ Join rest sep
  end.

(** The double quote character, for the JSON texts the code formats. *)
Definition dquote : ascii := ascii_of_nat 34.
Definition dq : string := String dquote EmptyString.

(** ** Errors *)

(** [google.golang.org/grpc/codes.Code]. *)
Inductive Code :=
| OK | Canceled | Unknown | InvalidArgument | DeadlineExceeded | NotFound
| AlreadyExists | PermissionDenied | ResourceExhausted | FailedPrecondition
| Aborted | OutOfRange | Unimplemented | Internal | Unavailable | DataLoss
| Unauthenticated.

#[global] Instance Code_eq_dec : EqDecision Code.
Proof. solve_decision. Defined.

Definition Code_String (c : Code) : string :=
  match c with
  | OK => "OK" | Canceled => "Canceled" | Unknown => "Unknown"
  | InvalidArgument => "InvalidArgument"
  | DeadlineExceeded => "DeadlineExceeded" | NotFound => "NotFound"
  | AlreadyExists => "AlreadyExists"
  | PermissionDenied => "PermissionDenied"
  | ResourceExhausted => "ResourceExhausted"
  | FailedPrecondition => "FailedPrecondition" | Aborted => "Aborted"
  | OutOfRange => "OutOfRange" | Unimplemented => "Unimplemented"
  | Internal => "Internal" | Unavailable => "Unavailable"
  | DataLoss => "DataLoss" | Unauthenticated => "Unauthenticated"
  end.

(** A non-nil Go [error].  A nil error is [None : option error]. *)
#[warnings="-register-all"]
Inductive error :=
| New (msg : string)
    (* errors.New, fmt.Errorf and xerrors.Errorf without %w *)
| Wrap (prefix : string) (cause : error)
    (* xerrors.Errorf("<prefix>%w", cause) *)
| StatusErr (code : Code) (msg : string)
    (* the error of a gRPC status *)
| Errors (errs : list error).
    (* errorlist.Errors *)

(** The [Error()] method. *)
Fixpoint Error (e : error) : string :=
  match e with
  | New msg => msg
  | Wrap prefix cause => prefix +:+ Error cause
  | StatusErr c msg =>
      "rpc error: code = " +:+ Code_String c +:+ " desc = " +:+ msg
  | Errors errs => Join (map Error errs) "; "
  end.

Module errorlist.

(** Modelled from the spec: [errorlist.Append], not among the source
    files.  The aggregate error "preserves all individual errors (none are
    silently dropped)": appending to nil starts a list, appending to a list
    extends it at the end. *)
Definition Append (err : option error) (e : error) : option error :=
  match err with
  | None => Some (Errors [e])
  | Some (Errors errs) => Some (Errors (errs ++ [e]))
  | Some other => Some (Errors [other; e])
  end.

(** The traversal of an aggregate: the individual errors it holds. *)
Definition members (err : option error) : list error :=
  match err with
  | None => []
  | Some (Errors errs) => errs
  | Some other => [other]
  end.

End errorlist.

(** [grpcStatus.Convert]: the status of a status error; any other error
    becomes a status with code Unknown and the error's text. *)
Definition Convert (err : error) : Code * string :=
  match err with
  | StatusErr c msg => (c, msg)
  | other => (Unknown, Error other)
  end.

(** ** The topology model (package greenplum) *)

Module greenplum.

Inductive Role := PrimaryRole | MirrorRole.

Record SegConfig := {
  DbID : Z;
  ContentID : Z;
  SegRole : Role;
  Port : Z;
  Hostname : string;
  DataDir : string;
}.

(** [Primaries] is the code's [ContentToSegConfig] map; the coordinator is
    its entry at content id -1 (see [config.Create]). *)
Record Cluster := {
  Primaries : gmap Z SegConfig;
  Mirrors : gmap Z SegConfig;
  GPHome : string;
}.

(** Modelled from the spec: [SegConfig.IsCoordinator], not among the source
    files: "[IsCoordinator()] on a segment (contentID == sentinel)", the
    sentinel being -1. *)
Definition IsCoordinator (seg : SegConfig) : bool := ContentID seg =? -1.

(** The content ids of a cluster, ascending. *)
Definition contents (c : Cluster) : list Z :=
  merge_sort Z.le (elements (dom (Primaries c) ∪ dom (Mirrors c))).

(** Every segment of the cluster: ascending content id, the primary of a
    content before its mirror. *)
Definition segments (c : Cluster) : list SegConfig :=
  contents c ≫= λ k,
    option_list (Primaries c !! k) ++ option_list (Mirrors c !! k).

(** Modelled from the spec: [Cluster.SelectSegments], not among the source
    files: "[SelectSegments(predicate) -> []Segment] (order: ascending
    contentID, primaries before mirrors)". *)
Definition SelectSegments (selector : SegConfig → bool) (c : Cluster)
  : list SegConfig :=
  List.filter selector (segments c).

(** The coordinator's hostname, when the cluster has a coordinator. *)
Definition coordinatorHostname (c : Cluster) : option string :=
  Hostname <$> Primaries c !! (-1).

End greenplum.

(** ** Agent connections (package idl and grpc) *)

(** [connectivity.State]. *)
Inductive State := Idle | Connecting | Ready | TransientFailure | Shutdown.

#[global] Instance State_eq_dec : EqDecision State.
Proof. solve_decision. Defined.

(** A [*grpc.ClientConn]: the address of the connection object. *)
Definition ClientConn := nat.

Module idl.

(** [idl.Connection].  [AgentClient] is the stub over [Conn] and
    [CancelContext] the dial context's cancel function; neither holds
    state of its own. *)
Record Connection := {
  Conn : ClientConn;
  Hostname : string;
}.

#[global] Instance Connection_eq_dec : EqDecision Connection.
Proof. solve_decision. Defined.

End idl.

(** What an operation observes outside the hub process at the time it runs. *)
Record Env := {
  (** the outcome of [s.grpcDialer(ctx, target, ...)] *)
  grpcDialer : string → error + ClientConn;
  (** the connectivity state of every connection object *)
  connStates : gmap ClientConn State;
  (** the outcome of the [StopAgent] RPC over a connection: [None] is a
      normal reply *)
  StopAgentRPC : idl.Connection → option error;
  (** the outcome of [grpc.DialContext(timeoutCtx, address, ...)] in
      [RestartAgents] *)
  DialContext : string → error + ClientConn;
  (** the outcome of [conn.Close()] in [RestartAgents] *)
  ConnClose : ClientConn → option error;
  (** the outcome of [utils.GetGpupgradePath()] *)
  GetGpupgradePath : error + string;
  (** the outcome of [ExecCommand(name, args...).Output()] *)
  CommandOutput : string → list string → error + string;
  (** the order in which a [range] over a [map[string]bool] visits the keys;
      Go leaves it unspecified *)
  mapRange : gmap string bool → list string;
  (** the order in which the goroutines of a fan-out deliver their results *)
  completion : ∀ A : Type, list A → list A;
}.

(** The keys of a Go map, in the model's canonical order. *)
Definition keys (m : gmap string bool) : list string := (map_to_list m).*1.

(** A legal environment: a [range] visits every key exactly once, and every
    goroutine of a fan-out finishes exactly once. *)
Record Env_ok (env : Env) : Prop := {
  mapRange_perm : ∀ m, mapRange env m ≡ₚ keys m;
  completion_perm : ∀ A (l : list A), completion env A l ≡ₚ l;
}.

(** [conn.GetState()]. *)
Definition GetState (states : gmap ClientConn State) (conn : ClientConn)
  : State :=
  default Idle (states !! conn).

(** How a call ends: it returns, it blocks forever, or it panics. *)
Inductive outcome (A : Type) :=
| Returns (a : A)
| Blocks
| Panics.
Arguments Returns {A} a.
Arguments Blocks {A}.
Arguments Panics {A}.

#[global] Instance outcome_ret : MRet outcome := @Returns.

#[global] Instance outcome_bind : MBind outcome := λ A B k o,
  match o with
  | Returns a => k a
  | Blocks => Blocks
  | Panics => Panics
  end.

(** ** The hub (package hub) *)

(** A [*grpc.Server]: the address of the server object. *)
Definition GrpcServer := nat.

(** [hub.Server].  [Source], [HubPort] and [AgentPort] are the fields of the
    embedded [*config.Config] that the modelled methods read; [Source] is a
    pointer and may be nil.  [stopped] is the [chan struct{}] of capacity 1:
    [None] is the nil channel and [Some n] a channel holding [n] signals.
    The mutex [mu] is free between two sequential calls and is not a field
    here.

    [serving] is not a field of the Go struct: it records that a goroutine
    is inside [Start], past the installation of [s.server] and before its
    send on [s.stopped]. *)
Record Server := {
  Source : option greenplum.Cluster;
  HubPort : Z;
  AgentPort : Z;
  StateDir : string;
  agentConns : list idl.Connection;
  server : option GrpcServer;
  stopped : option nat;
  daemon : bool;
  serving : bool;
}.

Definition set_agentConns (conns : list idl.Connection) (s : Server)
  : Server :=
  {| Source := Source s; HubPort := HubPort s; AgentPort := AgentPort s;
     StateDir := StateDir s; agentConns := conns; server := server s;
     stopped := stopped s; daemon := daemon s; serving := serving s |}.

Definition set_server (srv : option GrpcServer) (s : Server) : Server :=
  {| Source := Source s; HubPort := HubPort s; AgentPort := AgentPort s;
     StateDir := StateDir s; agentConns := agentConns s; server := srv;
     stopped := stopped s; daemon := daemon s; serving := serving s |}.

Definition set_stopped (ch : option nat) (s : Server) : Server :=
  {| Source := Source s; HubPort := HubPort s; AgentPort := AgentPort s;
     StateDir := StateDir s; agentConns := agentConns s; server := server s;
     stopped := ch; daemon := daemon s; serving := serving s |}.

Definition set_serving (b : bool) (s : Server) : Server :=
  {| Source := Source s; HubPort := HubPort s; AgentPort := AgentPort s;
     StateDir := StateDir s; agentConns := agentConns s; server := server s;
     stopped := stopped s; daemon := daemon s; serving := b |}.

(** [hub.New]; [conf] supplies the embedded configuration. *)
Definition NewServer (source : option greenplum.Cluster) (hubPort agentPort : Z)
    (stateDir : string) : Server :=
  {| Source := source; HubPort := hubPort; AgentPort := agentPort;
     StateDir := stateDir; agentConns := []; server := None;
     stopped := Some 0%nat; daemon := false; serving := false |}.

(** *** AgentHosts *)

Definition excludingCoordinator (seg : greenplum.SegConfig) : bool :=
  negb (greenplum.IsCoordinator seg).

(** The map built by the first loop of [AgentHosts]. *)
Definition uniqueHosts (c : greenplum.Cluster) : gmap string bool :=
  foldl (λ m seg, <[greenplum.Hostname seg := true]> m) ∅
        (greenplum.SelectSegments excludingCoordinator c).

(** [AgentHosts]: the second loop appends the keys in the order in which
    the [range] over the map visits them. *)
Definition AgentHosts (range : gmap string bool → list string)
    (c : greenplum.Cluster) : list string :=
  foldl (λ hosts host, hosts ++ [host]) [] (range (uniqueHosts c)).

(** The spec's order for [AgentHosts]: "insertion order of first
    occurrence" of the hostnames in the selected segments. *)
Fixpoint firstOccurrences (seen : list string) (l : list string)
  : list string :=
  match l with
  | [] => []
  | x :: rest =>
      if decide (x ∈ seen) then firstOccurrences seen rest
      else x :: firstOccurrences (x :: seen) rest
  end.

Definition AgentHosts_insertionOrder (c : greenplum.Cluster) : list string :=
  firstOccurrences []
    (greenplum.Hostname <$> greenplum.SelectSegments excludingCoordinator c).

(** *** EnsureConnsAreReady and AgentConns *)

(** The hostnames collected by the loop of [EnsureConnsAreReady]. *)
Fixpoint notReadyHosts (states : gmap ClientConn State)
    (agentConns : list idl.Connection) : list string :=
  match agentConns with
  | [] => []
  | conn :: rest =>
      if decide (GetState states (idl.Conn conn) ≠ Ready)
      then idl.Hostname conn :: notReadyHosts states rest
      else notReadyHosts states rest
  end.

Definition EnsureConnsAreReady (states : gmap ClientConn State)
    (agentConns : list idl.Connection) : option error :=
  let hostnames := notReadyHosts states agentConns in
  if (0 <? Z.of_nat (length hostnames))
  then Some (New ("the connections to the following hosts were not ready: "
                  +:+ Join hostnames ","))
  else None.

(** The connection made of a host and the connection dialled for it. *)
Definition connect (host : string) (conn : ClientConn) : idl.Connection :=
  {| idl.Conn := conn; idl.Hostname := host |}.

(** The dial loop of [AgentConns]: [conns] is [s.agentConns] so far and
    [dialed] the targets handed to the dialer so far. *)
Fixpoint dialAgents (dial : string → error + ClientConn) (port : Z)
    (hostnames : list string) (conns : list idl.Connection)
    (dialed : list string)
  : option error * list idl.Connection * list string :=
  match hostnames with
  | [] => (None, conns, dialed)
  | host :: rest =>
      let target := host +:+ ":" +:+ Itoa port in
      match dial target with
      | inl err =>
          (Some (Wrap "agent connections: " err), conns, dialed ++ [target])
      | inr conn =>
          dialAgents dial port rest
            (conns ++ [connect host conn])
            (dialed ++ [target])
      end
  end.

(** The result of [Server.AgentConns]: the returned slice and error, the
    server afterwards, and the targets it dialled. *)
Record AgentConnsResult := {
  ret_conns : list idl.Connection;
  ret_err : option error;
  after : Server;
  dials : list string;
}.

(** [Server.AgentConns].  [s.agentConns != nil] is [agentConns s ≠ []]: the
    slice is only ever nil or grown by [append]. *)
Definition AgentConns (env : Env) (s : Server) : outcome AgentConnsResult :=
  match agentConns s with
  | _ :: _ =>
      match EnsureConnsAreReady (connStates env) (agentConns s) with
      | Some err =>
          Returns {| ret_conns := [];
                     ret_err := Some (Wrap "ensuring agent connections are ready: " err);
                     after := s; dials := [] |}
      | None =>
          Returns {| ret_conns := agentConns s; ret_err := None;
                     after := s; dials := [] |}
      end
  | [] =>
      match Source s with
      | None => Panics (* AgentHosts dereferences the nil cluster *)
      | Some c =>
          let hostnames := AgentHosts (mapRange env) c in
          match dialAgents (grpcDialer env) (AgentPort s) hostnames
                           (agentConns s) [] with
          | (Some err, conns, dialed) =>
              Returns {| ret_conns := []; ret_err := Some err;
                         after := set_agentConns conns s; dials := dialed |}
          | (None, conns, dialed) =>
              Returns {| ret_conns := conns; ret_err := None;
                         after := set_agentConns conns s; dials := dialed |}
          end
      end
  end.

(** *** StopAgents *)

(** Modelled from the spec: [ExecuteRPC], not among the source files; the
    task fan-out of §4.3: "launches one concurrent unit of work per target,
    waits for all to finish [...], collects every non-nil error, and returns
    an aggregate error [...] or nil if all succeeded".  [order] is the order
    in which the units deliver their results. *)
Definition ExecuteRPC (order : list idl.Connection → list idl.Connection)
    (agentConns : list idl.Connection)
    (executeRequest : idl.Connection → option error) : option error :=
  foldl errorlist.Append None (omap executeRequest (order agentConns)).

(** The closure [request] of [Server.StopAgents]; [rpc] is what the
    [StopAgent] call returned as its error. *)
Definition request (rpc : idl.Connection → option error)
    (conn : idl.Connection) : option error :=
  match rpc conn with
  | None =>
      Some (New ("failed to stop agent on host: " +:+ idl.Hostname conn))
  | Some err =>
      let errStatus := Convert err in
      if negb (bool_decide (errStatus.1 = Unavailable))
         || negb (String.eqb errStatus.2 "transport is closing")
      then Some (Wrap ("failed to stop agent on host " +:+ idl.Hostname conn
                       +:+ " : ") err)
      else None
  end.

(** [Server.StopAgents]: the returned error, the server afterwards and the
    targets dialled by its call of [AgentConns]. *)
Definition StopAgents (env : Env) (s : Server)
  : outcome (option error * Server * list string) :=
  r ← AgentConns env s;
  match ret_err r with
  | Some err => Returns (Some err, after r, dials r)
  | None =>
      Returns (ExecuteRPC (completion env _) (agentConns (after r))
                          (request (StopAgentRPC env)),
               after r, dials r)
  end.

(** *** Start and Stop *)

(** [ErrHubStopped]. *)
Definition ErrHubStopped : error := New "hub is stopped".

(** [Server.Start] up to its call of [server.Serve]: [listen] is the outcome
    of [net.Listen] and [srv] the server made by [grpc.NewServer].  On
    [None] the goroutine goes on to serve. *)
Definition Start_enter (listen : option error) (srv : GrpcServer)
    (s : Server) : option error * Server :=
  match listen with
  | Some err =>
      (Some (Wrap ("listen on port " +:+ Itoa (HubPort s) +:+ ": ") err), s)
  | None =>
      match stopped s with
      | None => (Some ErrHubStopped, s)
      | Some _ => (None, set_serving true (set_server (Some srv) s))
      end
  end.

(** [Server.Start] after [server.Serve] has returned: the send
    [s.stopped <- struct{}{}].  A send on the nil channel, or on the full
    channel with no receiver, blocks. *)
Definition Start_signal (s : Server) : outcome Server :=
  match stopped s with
  | Some O => Returns (set_serving false (set_stopped (Some 1%nat) s))
  | Some (S _) => Blocks
  | None => Blocks
  end.

(** One iteration of [closeAgentConns].  [conn.Conn.Close()] moves a
    connection that is not shut down to Shutdown; on a connection already
    shut down it only returns an error, which is logged.
    [WaitForStateChange(context.Background(), currState)] returns once the
    state differs from [currState]. *)
Definition closeAgentConn (states : gmap ClientConn State)
    (conn : idl.Connection) : outcome (gmap ClientConn State) :=
  let currState := GetState states (idl.Conn conn) in
  let states' :=
    if decide (currState = Shutdown) then states
    else <[idl.Conn conn := Shutdown]> states in
  if decide (GetState states' (idl.Conn conn) = currState)
  then Blocks
  else Returns states'.

(** [Server.closeAgentConns]. *)
Fixpoint closeAgentConns (states : gmap ClientConn State)
    (conns : list idl.Connection) : outcome (gmap ClientConn State) :=
  match conns with
  | [] => Returns states
  | conn :: rest =>
      states' ← closeAgentConn states conn;
      closeAgentConns states' rest
  end.

(** The receive [<-s.stopped]: from the nil channel and from an empty
    channel that nobody will send on, it blocks. *)
Definition receive_stopped (s : Server) : outcome Server :=
  match stopped s with
  | Some (S n) => Returns (set_stopped (Some n) s)
  | Some O => Blocks
  | None => Blocks
  end.

(** [Server.Stop].  [s.server.Stop()] makes [Serve] return in the goroutine
    that runs [Start], if there is one, and that goroutine then makes its
    send on [s.stopped]. *)
Definition Stop (states : gmap ClientConn State) (closeConns : bool)
    (s : Server) : outcome (gmap ClientConn State * Server) :=
  states' ← (if closeConns then closeAgentConns states (agentConns s)
             else Returns states);
  s' ← match server s with
       | Some _ =>
           let s1 :=
             if serving s then
               match Start_signal s with
               | Returns s1 => s1
               | _ => s
               end
             else s in
           receive_stopped s1
       | None => Returns s
       end;
  Returns (states', set_stopped None s').

(** *** RestartAgents *)

(** What one goroutine of [RestartAgents] sends before it finishes. *)
Inductive sent :=
| SentErr (e : error)          (* errs <- e *)
| SentHost (host : string)     (* restartedHosts <- host *)
| SentNothing.

(** The body of the goroutine of [RestartAgents] for one host.  Its [err]
    is declared inside the goroutine. *)
Definition restartAgent (env : Env) (port : Z) (stateDir : string)
    (host : string) : sent :=
  let address := host +:+ ":" +:+ Itoa port in
  match DialContext env address with
  | inr conn =>
      match ConnClose env conn with
      | Some err =>
          SentErr (New ("failed to close agent connection to " +:+ host
                        +:+ ": " +:+ Error err))
      | None => SentNothing
      end
  | inl _ =>
      match GetGpupgradePath env with
      | inl err => SentErr err
      | inr path =>
          match CommandOutput env "ssh"
                  [host;
                   "bash -c " +:+ dq +:+ path +:+ " agent --daemonize --port "
                   +:+ Itoa port +:+ " --state-directory " +:+ stateDir
                   +:+ dq] with
          | inl err => SentErr err
          | inr _ => SentHost host
          end
      end
  end.

Definition sentHost (m : sent) : option string :=
  match m with SentHost h => Some h | _ => None end.

Definition sentErr (m : sent) : option error :=
  match m with SentErr e => Some e | _ => None end.

(** [RestartAgents]: one goroutine per host; after [wg.Wait()] both
    channels are drained in the order in which the goroutines sent. *)
Definition RestartAgents (env : Env) (hostnames : list string) (port : Z)
    (stateDir : string) : list string * option error :=
  let delivered :=
    completion env _ (restartAgent env port stateDir <$> hostnames) in
  let restartedHosts := omap sentHost delivered in
  let errs := omap sentErr delivered in
  let hosts := foldl (λ hosts h, hosts ++ [h]) [] restartedHosts in
  let err := foldl errorlist.Append None errs in
  (hosts, err).



(** ** The per-database fan-out of GenerateDataMigrationScripts *)

Module commanders.

Record DatabaseInfo := {
  Datname : string;
  QuotedDatname : string;
  NumSeedScripts : Z;
}.

(** Where a goroutine of the fan-out stands:
    - [AtAssign]: before [err = GenerateScriptsPerDatabase(...)];
    - [AtTest]: before [if err != nil];
    - [AtSend]: inside the branch, before [errChan <- err] and
      [bar.Abort(false)];
    - [Finished]: after [wg.Done()]. *)
Inductive pc := AtAssign | AtTest | AtSend | Finished.

#[global] Instance pc_eq_dec : EqDecision pc.
Proof. solve_decision. Defined.

(** The state of the fan-out.  [err] is the variable of the enclosing
    function [GenerateDataMigrationScripts]: the goroutines assign to it
    with [=], so all of them share it.  [errChan] holds the values sent so
    far.  [bars] tells, for the progress bar of each goroutine, whether it
    has been filled or aborted. *)
Record fanout := {
  err : option error;
  pcs : list pc;
  errChan : list (option error);
  bars : list bool;
}.

(** The state when the goroutines have been launched; [err] is nil, since
    the function returned early otherwise. *)
Definition launch (databases : list DatabaseInfo) : fanout :=
  {| err := None; pcs := (λ _, AtAssign) <$> databases; errChan := [];
     bars := (λ _, false) <$> databases |}.

(** What [GenerateScriptsPerDatabase] does for a database: the error it
    returns, and whether it has incremented the bar up to its total by
    then. *)
Record generated := {
  gen_err : option error;
  gen_filled : bool;
}.

(** One step of goroutine [i]. *)
Definition step (generate : DatabaseInfo → generated)
    (databases : list DatabaseInfo) (st : fanout) (i : nat) : fanout :=
  match pcs st !! i, databases !! i with
  | Some AtAssign, Some database =>
      {| err := gen_err (generate database);
         pcs := <[i := AtTest]> (pcs st);
         errChan := errChan st;
         bars := <[i := gen_filled (generate database)]> (bars st) |}
  | Some AtTest, _ =>
      {| err := err st;
         pcs := <[i := match err st with
                       | Some _ => AtSend
                       | None => Finished
                       end]> (pcs st);
         errChan := errChan st;
         bars := bars st |}
  | Some AtSend, _ =>
      {| err := err st;
         pcs := <[i := Finished]> (pcs st);
         errChan := errChan st ++ [err st];
         bars := <[i := true]> (bars st) |}
  | _, _ => st
  end.

(** The goroutines run as [schedule] interleaves them. *)
Definition run (generate : DatabaseInfo → generated)
    (databases : list DatabaseInfo) (schedule : list nat) : fanout :=
  foldl (step generate databases) (launch databases) schedule.

(** Modelled from the spec: what [errorlist.Append] does with a nil error,
    its source not being among the files: the fan-out "collects every
    non-nil error". *)
Definition collect (errs : option error) (e : option error)
  : option error :=
  match e with
  | Some e' => errorlist.Append errs e'
  | None => errs
  end.

(** The fan-out of [GenerateDataMigrationScripts], from the launch of the
    goroutines to [if errs != nil { return errs }]: [None] while a
    goroutine of the schedule is still unfinished; otherwise
    [progressBar.Wait()] returns once every bar is filled or aborted, and
    the errors of the channel are aggregated. *)
Definition generateFanout (generate : DatabaseInfo → generated)
    (databases : list DatabaseInfo) (schedule : list nat)
  : option (outcome (option error)) :=
  let final := run generate databases schedule in
  if bool_decide (Forall (λ p, p = Finished) (pcs final))
  then
    if forallb id (bars final)
    then Some (Returns (foldl collect None (errChan final)))
    else Some Blocks
  else None.

(** The schedule that runs the goroutines one after the other. *)
Definition sequential (n : nat) : list nat :=
  seq 0 n ≫= λ i, [i; i; i].

End commanders.

(** ** Files *)

Module fs.

(** A file system: the content of every file, by path. *)
Abbreviation FS := (gmap string string).

(** The effect of a file operation is the sequence of file-system states
    it goes through, each of which another process, or a crash, can
    observe; the last one is the state it leaves. *)
Definition final (fs : FS) (trace : list FS) : FS := default fs (last trace).

(** How [os.WriteFile] fails, when it does: opening the file, before
    anything is created or truncated, or writing, after [n] bytes. *)
Inductive failure :=
| AtOpen (e : error)
| AfterBytes (n : nat) (e : error).

(** What the operating system answers besides the content of the files:
    for each path, the error of [os.Stat] other than "does not exist", the
    error of opening the file to read it, and how writing the file
    fails. *)
Record OS := {
  StatErr : string → option error;
  OpenErr : string → option error;
  WriteFileErr : string → option failure;
}.

(** The states a complete write of [data] to [name] goes through: the file
    is opened with [O_WRONLY|O_CREATE|O_TRUNC], which leaves it empty, then
    the bytes reach the file in order. *)
Definition writes (name data : string) (fs : FS) : list FS :=
  (λ n, <[name := substring 0 n data]> fs) <$> seq 0 (S (String.length data)).

(** [os.WriteFile(name, data, perm)]: the error it returns and the states
    the file system goes through.  ("Since WriteFile requires multiple
    system calls to complete, a failure mid-operation can leave the file
    in a partially written state.") *)
Definition WriteFile (os : OS) (name data : string) (fs : FS)
  : option error * list FS :=
  match WriteFileErr os name with
  | None => (None, writes name data fs)
  | Some (AtOpen e) => (Some e, [])
  | Some (AfterBytes n e) => (Some e, take (S n) (writes name data fs))
  end.

(** [os.Open(name)] and the content the file then delivers. *)
Definition Open (os : OS) (name : string) (fs : FS) : error + string :=
  match OpenErr os name with
  | Some e => inl e
  | None =>
      match fs !! name with
      | Some data => inr data
      | None =>
          inl (New ("open " +:+ name +:+ ": no such file or directory"))
      end
  end.

(** [os.Rename(oldpath, newpath)]: one step. *)
Definition Rename (oldpath newpath : string) (fs : FS) : FS :=
  match fs !! oldpath with
  | Some data => <[newpath := data]> (delete oldpath fs)
  | None => fs
  end.

(** Modelled from the spec: [upgrade.PathExist], not among the source
    files: whether the path is "already present", as its callers log, or
    the error that its callers wrap and return. *)
Definition PathExist (os : OS) (path : string) (fs : FS) : error + bool :=
  match StatErr os path with
  | Some e => inl e
  | None => inr (bool_decide (is_Some (fs !! path)))
  end.

(** Modelled from the spec: [utils.AtomicallyWrite], not among the source
    files: "rewritten atomically on every save (temp file + rename)",
    "write-to-temp-then-rename semantics".  [tmp] is the name of the
    temporary file. *)
Definition AtomicallyWrite (tmp : string) (path data : string) (fs : FS)
  : list FS :=
  let written := writes tmp data fs in
  written ++ [Rename tmp path (final fs written)].

(** No state of [trace] shows anything at [path] but what [fs] had there
    or the complete [data]. *)
Definition never_partial (path data : string) (fs : FS) (trace : list FS)
  : Prop :=
  Forall (λ fs', fs' !! path = fs !! path ∨ fs' !! path = Some data) trace.

#[global] Instance never_partial_dec path data fs trace :
  Decision (never_partial path data fs trace).
Proof. unfold never_partial. apply _. Defined.

End fs.

(** ** The hub's configuration file (package config) *)

Module config.

Definition ConfigFileName : string := "config.json".

(** [idl.Mode]. *)
Inductive Mode := unknown_mode | copy | link.

(** [config.Config], without [BackupDirs], whose type is declared in a
    package that is not among the source files. *)
Record Config := {
  LogArchiveDir : string;
  Source : option greenplum.Cluster;
  Intermediate : option greenplum.Cluster;
  Target : option greenplum.Cluster;
  HubPort : Z;
  AgentPort : Z;
  ConfigMode : Mode;
  UseHbaHostnames : bool;
  UpgradeID : Z;
}.

(** [GetConfigFile]: [filepath.Join(utils.GetStateDir(), ConfigFileName)],
    for a state directory given as a clean path. *)
Definition GetConfigFile (stateDir : string) : string :=
  stateDir +:+ "/" +:+ ConfigFileName.

(** [Config.Save]: the error it returns and the states the file system
    goes through.  [encode] is [json.Encoder.Encode] with its indentation
    set, and [tmp] the temporary file of [utils.AtomicallyWrite]. *)
Definition Save (encode : Config → error + string) (tmp stateDir : string)
    (c : Config) (fs : fs.FS) : option error * list fs.FS :=
  match encode c with
  | inl err => (Some (Wrap "save configuration file: " err), [])
  | inr buffer =>
      (None, fs.AtomicallyWrite tmp (GetConfigFile stateDir) buffer fs)
  end.

(** The configuration that [Create] bootstraps. *)
Definition bootstrap (hubPort sourcePort : Z) (sourceGPHome : string)
  : Config :=
  {| LogArchiveDir := "";
     Source := Some
       {| greenplum.Primaries :=
            <[-1 := {| greenplum.DbID := 0; greenplum.ContentID := 0;
                       greenplum.SegRole := greenplum.PrimaryRole;
                       greenplum.Port := sourcePort;
                       greenplum.Hostname := "";
                       greenplum.DataDir := "" |}]> ∅;
          greenplum.Mirrors := ∅;
          greenplum.GPHome := sourceGPHome |};
     Intermediate := None; Target := None;
     HubPort := hubPort; AgentPort := 0; ConfigMode := unknown_mode;
     UseHbaHostnames := false; UpgradeID := 0 |}.

(** [config.Create]; [quote] is the [%q] verb. *)
Definition Create (os : fs.OS) (quote : string → string)
    (encode : Config → error + string) (tmp stateDir : string)
    (hubPort sourcePort : Z) (sourceGPHome : string) (fs : fs.FS)
  : option error * list fs.FS :=
  let path := GetConfigFile stateDir in
  match fs.PathExist os path fs with
  | inl err =>
      (Some (Wrap ("checking configuration path " +:+ quote path +:+ ": ")
                  err), [])
  | inr true => (None, [])
  | inr false =>
      Save encode tmp stateDir (bootstrap hubPort sourcePort sourceGPHome) fs
  end.

End config.

(** ** The files the CLI writes before the hub exists (package commanders) *)

(** Modelled from the spec: [upgrade.GetConfigFile], not among the source
    files: the "configuration record at a well-known path under a state
    directory", which is the path [config.GetConfigFile] computes. *)
Definition upgrade_GetConfigFile (stateDir : string) : string :=
  config.GetConfigFile stateDir.

(** The text [fmt.Sprintf(`{"GPHome": %s, "Port": %d}`, gphome, port)]. *)
Definition temporaryConfigText (gphome : string) (port : Z) : string :=
  "{" +:+ dq +:+ "GPHome" +:+ dq +:+ ": " +:+ gphome +:+ ", "
  +:+ dq +:+ "Port" +:+ dq +:+ ": " +:+ Itoa port +:+ "}".

(** [commanders.CreateTemporaryConfigFile]; [quote] is the [%q] verb. *)
Definition CreateTemporaryConfigFile (os : fs.OS) (quote : string → string)
    (stateDir gphome : string) (port : Z) (fs : fs.FS)
  : option error * list fs.FS :=
  let path := upgrade_GetConfigFile stateDir +:+ ".tmp" in
  match fs.PathExist os path fs with
  | inl err =>
      (Some (Wrap ("checking temporary configuration path " +:+ quote path
                   +:+ ": ") err), [])
  | inr true => (None, [])
  | inr false => fs.WriteFile os path (temporaryConfigText gphome port) fs
  end.

(** The text [fmt.Sprintf(`{"Port": %d}`, hubPort)]. *)
Definition configText (hubPort : Z) : string :=
  "{" +:+ dq +:+ "Port" +:+ dq +:+ ": " +:+ Itoa hubPort +:+ "}".

(** [commanders.CreateConfigFile]; [quote] is the [%q] verb. *)
Definition CreateConfigFile (os : fs.OS) (quote : string → string)
    (stateDir : string) (hubPort : Z) (fs : fs.FS)
  : option error * list fs.FS :=
  let path := upgrade_GetConfigFile stateDir in
  match fs.PathExist os path fs with
  | inl err =>
      (Some (Wrap ("checking configuration path " +:+ quote path +:+ ": ")
                  err), [])
  | inr true => (None, [])
  | inr false => fs.WriteFile os path (configText hubPort) fs
  end.

(** ** Decoding the temporary configuration (encoding/json, package commands) *)

Module json.

(** A model of [encoding/json]'s decoder on the JSON texts of this program:
    objects, arrays, strings with the two-character escapes, integer
    numbers and the three literals.  A [\u] escape and a number with a
    fraction or an exponent are outside the model and are reported as
    syntax errors. *)
#[warnings="-register-all"]
Inductive value :=
| Null
| Bool (b : bool)
| Number (n : Z)
| Str (s : string)
| Object (fields : list (string * value))
| Array (items : list value).

Definition isSpace (c : ascii) : bool :=
  let n := nat_of_ascii c in
  (n =? 32)%nat || (n =? 9)%nat || (n =? 10)%nat || (n =? 13)%nat.

Fixpoint skipSpace (s : string) : string :=
  match s with
  | String c rest => if isSpace c then skipSpace rest else s
  | EmptyString => s
  end.

Definition isDigit (c : ascii) : bool :=
  let n := nat_of_ascii c in (48 <=? n)%nat && (n <=? 57)%nat.

Definition digitValue (c : ascii) : Z := Z.of_nat (nat_of_ascii c) - 48.

(** The character an escape [\c] stands for. *)
Definition unescape (c : ascii) : option ascii :=
  let n := nat_of_ascii c in
  if (n =? 34)%nat then Some c            (* quote *)
  else if (n =? 92)%nat then Some c       (* backslash *)
  else if (n =? 47)%nat then Some c       (* slash *)
  else if (n =? 98)%nat then Some (ascii_of_nat 8)
  else if (n =? 102)%nat then Some (ascii_of_nat 12)
  else if (n =? 110)%nat then Some (ascii_of_nat 10)
  else if (n =? 114)%nat then Some (ascii_of_nat 13)
  else if (n =? 116)%nat then Some (ascii_of_nat 9)
  else None.

(** A string literal after its opening quote: the string and the input
    after the closing quote. *)
Fixpoint scanString (s : string) : option (string * string) :=
  match s with
  | EmptyString => None
  | String c rest =>
      if (nat_of_ascii c =? 34)%nat then Some (EmptyString, rest)
      else if (nat_of_ascii c =? 92)%nat then
        match rest with
        | String e rest' =>
            match unescape e, scanString rest' with
            | Some c', Some (body, after) => Some (String c' body, after)
            | _, _ => None
            end
        | EmptyString => None
        end
      else if (nat_of_ascii c <? 32)%nat then None
      else
        match scanString rest with
        | Some (body, after) => Some (String c body, after)
        | None => None
        end
  end.

(** The digits at the head of the input, as the number they continue. *)
Fixpoint scanDigits (acc : Z) (s : string) : Z * string :=
  match s with
  | String c rest =>
      if isDigit c then scanDigits (10 * acc + digitValue c) rest
      else (acc, s)
  | EmptyString => (acc, s)
  end.

Definition startsFraction (s : string) : bool :=
  match s with
  | String c _ =>
      let n := nat_of_ascii c in
      (n =? 46)%nat || (n =? 101)%nat || (n =? 69)%nat
  | EmptyString => false
  end.

(** An integer without its sign: no leading zero before another digit. *)
Definition scanNatural (s : string) : option (Z * string) :=
  match s with
  | String c rest =>
      if negb (isDigit c) then None
      else
        let '(n, after) := scanDigits 0 s in
        if (nat_of_ascii c =? 48)%nat
           && match rest with
              | String d _ => isDigit d
              | EmptyString => false
              end
        then None
        else if startsFraction after then None
        else Some (n, after)
  | EmptyString => None
  end.

Definition scanLiteral (lit : string) (v : value) (s : string)
  : option (value * string) :=
  if String.prefix lit s
  then Some (v, substring (String.length lit)
                          (String.length s - String.length lit) s)
  else None.

(** A value at the head of the input, and the input after it.  [fuel]
    bounds the nesting and the number of members. *)
Fixpoint scanValue (fuel : nat) (s : string) : option (value * string) :=
  match fuel with
  | O => None
  | S fuel' =>
      match skipSpace s with
      | EmptyString => None
      | String c rest =>
          let n := nat_of_ascii c in
          if (n =? 34)%nat then
            match scanString rest with
            | Some (str, after) => Some (Str str, after)
            | None => None
            end
          else if (n =? 123)%nat then
            match skipSpace rest with
            | String c' rest' =>
                if (nat_of_ascii c' =? 125)%nat then Some (Object [], rest')
                else
                  match scanMembers fuel' rest with
                  | Some (fields, after) => Some (Object fields, after)
                  | None => None
                  end
            | EmptyString => None
            end
          else if (n =? 91)%nat then
            match skipSpace rest with
            | String c' rest' =>
                if (nat_of_ascii c' =? 93)%nat then Some (Array [], rest')
                else
                  match scanElements fuel' rest with
                  | Some (items, after) => Some (Array items, after)
                  | None => None
                  end
            | EmptyString => None
            end
          else if (n =? 45)%nat then
            match scanNatural rest with
            | Some (m, after) => Some (Number (- m), after)
            | None => None
            end
          else if isDigit c then
            match scanNatural (String c rest) with
            | Some (m, after) => Some (Number m, after)
            | None => None
            end
          else if (n =? 116)%nat then scanLiteral "true" (Bool true) (String c rest)
          else if (n =? 102)%nat then scanLiteral "false" (Bool false) (String c rest)
          else if (n =? 110)%nat then scanLiteral "null" Null (String c rest)
          else None
      end
  end

(** The members of an object after its opening brace, up to and
    including the closing brace. *)
with scanMembers (fuel : nat) (s : string)
  : option (list (string * value) * string) :=
  match fuel with
  | O => None
  | S fuel' =>
      match skipSpace s with
      | String c rest =>
          if (nat_of_ascii c =? 34)%nat then
            match scanString rest with
            | Some (key, after) =>
                match skipSpace after with
                | String colon after' =>
                    if (nat_of_ascii colon =? 58)%nat then
                      match scanValue fuel' after' with
                      | Some (v, after'') =>
                          match skipSpace after'' with
                          | String d rest'' =>
                              if (nat_of_ascii d =? 125)%nat
                              then Some ([(key, v)], rest'')
                              else if (nat_of_ascii d =? 44)%nat then
                                match scanMembers fuel' rest'' with
                                | Some (fields, final) =>
                                    Some ((key, v) :: fields, final)
                                | None => None
                                end
                              else None
                          | EmptyString => None
                          end
                      | None => None
                      end
                    else None
                | EmptyString => None
                end
            | None => None
            end
          else None
      | EmptyString => None
      end
  end

(** The elements of an array after its opening bracket, up to and
    including the closing bracket. *)
with scanElements (fuel : nat) (s : string)
  : option (list value * string) :=
  match fuel with
  | O => None
  | S fuel' =>
      match scanValue fuel' s with
      | Some (v, after) =>
          match skipSpace after with
          | String d rest =>
              if (nat_of_ascii d =? 93)%nat then Some ([v], rest)
              else if (nat_of_ascii d =? 44)%nat then
                match scanElements fuel' rest with
                | Some (items, final) => Some (v :: items, final)
                | None => None
                end
              else None
          | EmptyString => None
          end
      | None => None
      end
  end.

(** The first JSON value of a stream, which is all that one [Decode]
    reads.  A text of n characters nests fewer than n+1 scans. *)
Definition firstValue (s : string) : option value :=
  fst <$> scanValue (S (String.length s)) s.

Definition SyntaxError : error := New "json: invalid syntax".

Definition UnmarshalTypeError (field : string) : error :=
  New ("json: cannot unmarshal value into Go struct field " +:+ field).

Definition toLower (c : ascii) : ascii :=
  let n := nat_of_ascii c in
  if (65 <=? n)%nat && (n <=? 90)%nat then ascii_of_nat (n + 32) else c.

Fixpoint lower (s : string) : string :=
  match s with
  | String c rest => String (toLower c) (lower rest)
  | EmptyString => EmptyString
  end.

(** A key names a field when it equals the field's name, letter case
    apart. *)
Definition names (key field : string) : bool :=
  String.eqb (lower key) (lower field).

End json.

Module commands.

(** [commands.TemporaryConfig]; [Port] is an [int32]. *)
Record TemporaryConfig := {
  GPHome : string;
  Port : Z;
}.

(** [new(TemporaryConfig)]. *)
Definition zero : TemporaryConfig := {| GPHome := ""; Port := 0 |}.

(** The decoding of one member of the object into the struct; an error
    of type is kept, and the decoding goes on. *)
Definition decodeField (acc : option error * TemporaryConfig)
    (member : string * json.value) : option error * TemporaryConfig :=
  let '(err, c) := acc in
  let '(key, v) := member in
  let fail field :=
    (match err with
     | Some e => Some e
     | None => Some (json.UnmarshalTypeError field)
     end, c) in
  if json.names key "GPHome" then
    match v with
    | json.Str s => (err, {| GPHome := s; Port := Port c |})
    | json.Null => (err, c)
    | _ => fail "TemporaryConfig.GPHome"
    end
  else if json.names key "Port" then
    match v with
    | json.Number n =>
        if (- 2147483648 <=? n) && (n <=? 2147483647)
        then (err, {| GPHome := GPHome c; Port := n |})
        else fail "TemporaryConfig.Port"
    | json.Null => (err, c)
    | _ => fail "TemporaryConfig.Port"
    end
  else (err, c).

(** [TemporaryConfig.Load]: [json.NewDecoder(r).Decode(c)] on the content
    [r] delivers. *)
Definition Load (c : TemporaryConfig) (r : string)
  : option error * TemporaryConfig :=
  match json.firstValue r with
  | None => (Some json.SyntaxError, c)
  | Some (json.Object fields) => foldl decodeField (None, c) fields
  | Some json.Null => (None, c)
  | Some _ => (Some (json.UnmarshalTypeError "TemporaryConfig"), c)
  end.

(** [LoadConfig]. *)
Definition LoadConfig (os : fs.OS) (conf : TemporaryConfig) (path : string)
    (fs : fs.FS) : option error * TemporaryConfig :=
  match fs.Open os path fs with
  | inl err =>
      (Some (Wrap "opening temporary configuration file: " err), conf)
  | inr file =>
      match Load conf file with
      | (Some err, conf') =>
          (Some (Wrap "reading temporary configuration file: " err), conf')
      | (None, conf') => (None, conf')
      end
  end.

(** What [revert] takes from the temporary configuration: the error it
    returns when [upgrade.PathExist] fails; when the file exists, the
    [GPHome] and [Port] of a new [TemporaryConfig] after [LoadConfig],
    whatever [LoadConfig] returned; nothing when there is no file.
    [quote] is the [%q] verb. *)
Definition revertSource (os : fs.OS) (quote : string → string)
    (stateDir : string) (fs : fs.FS) : error + option (string * Z) :=
  let path := upgrade_GetConfigFile stateDir +:+ ".tmp" in
  match fs.PathExist os path fs with
  | inl err =>
      inl (Wrap ("checking temporary configuration path " +:+ quote path
                 +:+ ": ") err)
  | inr true =>
      let tempConfig := (LoadConfig os zero path fs).2 in
      inr (Some (GPHome tempConfig, Port tempConfig))
  | inr false => inr None
  end.

End commands.

(** ** StopServices (package hub) *)

(** [Server.StopServices]: the error it returns, the connection states and
    the server afterwards, and the targets dialled on the way.  The error
    of [StopAgents] is logged; the deferred [s.Stop(false)] runs before the
    handler returns its empty reply and nil error. *)
Definition StopServices (env : Env) (s : Server)
  : outcome (option error * gmap ClientConn State * Server * list string) :=
  agents ← StopAgents env s;
  stopping ← Stop (connStates env) false agents.1.2;
  Returns (None, stopping.1, stopping.2, agents.2).

(** ** The step sentinels (package step) *)

Module step.

(** Modelled from the spec: [step.Skip], [step.Quit], not among the source
    files: "a [Skip] sentinel (substep deliberately not applicable this run
    [...], not an error), a [Quit] sentinel (operator chose to abort)";
    two distinct error values. *)
Definition Skip : error := New "skip".
Definition Quit : error := New "quit".

End step.

(** ** Starting the hub (package commanders) *)

(** How a command run with [Output] or [CombinedOutput] ends: with status
    0, with another status (an [*exec.ExitError]), or without having run. *)
Inductive ran :=
| Succeeded (output : string)
| ExitError (code : Z) (output : string)
| Failed (err : error).

(** The error of a command: nil, the [*exec.ExitError], or the failure. *)
Definition ranErr (r : ran) : option error :=
  match r with
  | Succeeded _ => None
  | ExitError code _ => Some (New ("exit status " +:+ Itoa code))
  | Failed err => Some err
  end.

Definition ranOutput (r : ran) : string :=
  match r with
  | Succeeded output => output
  | ExitError _ output => output
  | Failed _ => ""
  end.

(** [IsHubRunning]; [count] is how the [ps | grep -c] pipeline ended. *)
Definition IsHubRunning (count : ran) : bool * option error :=
  match count with
  | ExitError code output =>
      if code =? 1 then (false, None)              (* hub not found *)
      else (false, ranErr (ExitError code output)) (* grep failed *)
  | Failed err => (false, Some err)
  | Succeeded _ => (true, None)
  end.

(** [StartHub]: the error it returns and whether it has executed
    "gpupgrade hub --daemonize".  [quote] is the [%q] verb, [cmdString] is
    [cmd.String()], and [start] is how the command ends if it is run. *)
Definition StartHub (quote : string → string) (cmdString : string)
    (count start : ran) : option error * bool :=
  match IsHubRunning count with
  | (_, Some err) => (Some (Wrap "is hub running: " err), false)
  | (true, None) => (Some step.Skip, false)
  | (false, None) =>
      match ranErr start with
      | Some err =>
          (Some (Wrap (quote cmdString +:+ " failed with "
                       +:+ quote (ranOutput start) +:+ ": ") err),
           true)
      | None => (None, true)
      end
  end.

(** ** Strings and numbers (packages strings and strconv) *)

(** [strings.Split(s, sep)] for a separator of one character. *)
Fixpoint Split (s : string) (sep : ascii) : list string :=
  match s with
  | EmptyString => [EmptyString]
  | String c rest =>
      if Ascii.eqb c sep then EmptyString :: Split rest sep
      else
        match Split rest sep with
        | part :: parts => String c part :: parts
        | [] => [String c EmptyString]
        end
  end.

(** The white space of ASCII, as [strings.TrimSpace] knows it. *)
Definition isAsciiSpace (c : ascii) : bool :=
  let n := nat_of_ascii c in
  ((9 <=? n)%nat && (n <=? 13)%nat) || (n =? 32)%nat.

Fixpoint trimLeft (s : string) : string :=
  match s with
  | String c rest => if isAsciiSpace c then trimLeft rest else s
  | EmptyString => s
  end.

Fixpoint trimRight (s : string) : string :=
  match s with
  | String c rest =>
      match trimRight rest with
      | EmptyString =>
          if isAsciiSpace c then EmptyString else String c EmptyString
      | rest' => String c rest'
      end
  | EmptyString => s
  end.

(** [strings.TrimSpace] and [strings.ToLower] on a string of ASCII
    characters; on other strings the functions of Go also know the spaces
    and the letters of Unicode. *)
Definition TrimSpace (s : string) : string := trimRight (trimLeft s).

Definition lowerChar (c : ascii) : ascii :=
  let n := nat_of_ascii c in
  if (65 <=? n)%nat && (n <=? 90)%nat then ascii_of_nat (n + 32) else c.

Fixpoint ToLower (s : string) : string :=
  match s with
  | String c rest => String (lowerChar c) (ToLower rest)
  | EmptyString => EmptyString
  end.

(** A string of ASCII characters. *)
Fixpoint isASCII (s : string) : bool :=
  match s with
  | String c rest => (nat_of_ascii c <? 128)%nat && isASCII rest
  | EmptyString => true
  end.

(** The value of a decimal digit. *)
Definition digit (c : ascii) : option Z :=
  let n := nat_of_ascii c in
  if (48 <=? n)%nat && (n <=? 57)%nat then Some (Z.of_nat n - 48) else None.

(** The number a string of decimal digits continues from [acc]. *)
Fixpoint parseDigits (acc : Z) (s : string) : option Z :=
  match s with
  | EmptyString => Some acc
  | String c rest =>
      match digit c with
      | Some d => parseDigits (10 * acc + d) rest
      | None => None
      end
  end.

(** [strconv.ParseUint(s, 10, bitSize)], without the error it describes a
    failure with: a string that is empty or holds anything but decimal
    digits is a syntax error, a number of more than [bitSize] bits a range
    error. *)
Definition ParseUint (s : string) (bitSize : Z) : option Z :=
  match s with
  | EmptyString => None
  | _ =>
      match parseDigits 0 s with
      | Some n => if n <? 2 ^ bitSize then Some n else None
      | None => None
      end
  end.

(** ** The flags of initialize (package commands) *)

(** One element of the list of [parsePorts]: a range or a single port. *)
Definition parsePortsElement (p : string) : error + list Z :=
  match Split p "-" with
  | [lowText; highText] =>
      match ParseUint lowText 16 with
      | None => inl (New ("failed to parse port range " +:+ p))
      | Some low =>
          match ParseUint highText 16 with
          | None => inl (New ("failed to parse port range " +:+ p))
          | Some high =>
              if high <? low then inl (New ("invalid port range " +:+ p))
              else inr (seqZ low (high - low + 1))
          end
      end
  | _ =>
      match ParseUint p 16 with
      | None => inl (New ("failed to parse port " +:+ p))
      | Some port => inr [port]
      end
  end.

(** The loop of [parsePorts] over the elements, [ports] being the slice so
    far. *)
Fixpoint parsePortsLoop (elements : list string) (ports : list Z)
  : error + list Z :=
  match elements with
  | [] => inr ports
  | p :: rest =>
      match parsePortsElement p with
      | inl err => inl err
      | inr more => parsePortsLoop rest (ports ++ more)
      end
  end.

(** [parsePorts]. *)
Definition parsePorts (val : string) : error + list Z :=
  match val with
  | EmptyString => inr []
  | _ => parsePortsLoop (Split val ",") []
  end.

(** The names of [idl.Mode], as the enum of common.proto declares them:
    the generated [Mode.String] and [Mode_value]. *)
Definition Mode_String (m : config.Mode) : string :=
  match m with
  | config.unknown_mode => "unknown_mode"
  | config.copy => "copy"
  | config.link => "link"
  end.

Definition Mode_value (name : string) : option config.Mode :=
  if String.eqb name "unknown_mode" then Some config.unknown_mode
  else if String.eqb name "copy" then Some config.copy
  else if String.eqb name "link" then Some config.link
  else None.

(** [parseMode].  [quote] is the [%q] verb and [visited] the modes in the
    order in which the [range] over [idl.Mode_name] visits them. *)
Definition parseMode (quote : string → string) (visited : list config.Mode)
    (input : string) : config.Mode * option error :=
  let input := ToLower (TrimSpace input) in
  match Mode_value input with
  | Some mode => (mode, None)
  | None =>
      let choices :=
        List.filter (λ name, negb (String.eqb name "unknown_mode"))
                    (Mode_String <$> visited) in
      (config.unknown_mode,
       Some (New ("Invalid input " +:+ quote input
                  +:+ ". Please specify either " +:+ Join choices ", "
                  +:+ ".")))
  end.

(** ** The prompt before generating migration scripts (package commanders) *)

Module prompt.

(** An [fs.DirEntry]: its name, whether it is a directory, and what
    [Info()] returns: an error, or the file information, of which the
    function uses the modification time, here as [Format("20060102T1504")]
    renders it. *)
Record DirEntry := {
  Name : string;
  IsDir : bool;
  Info : error + string;
}.

(** What the function finds outside: the entries of the output directory,
    whether a path exists, and how making directories and moving end. *)
Record World := {
  ReadDirFS : error + list DirEntry;
  PathExist : string → error + bool;
  MkdirAll : string → option error;
  Move : string → string → option error;
}.

(** A change of the file system the function has asked for. *)
Inductive fsop :=
| OpMkdirAll (path : string)
| OpMove (src dst : string).

(** The result: the error returned, the changes asked for, in order, and
    the lines of the reader not yet read. *)
Record Result := {
  err : option error;
  ops : list fsop;
  unread : list string;
}.

(** The loop over the entries: [found] is the modification time of the
    last directory named "current" so far. *)
Fixpoint findCurrent (entries : list DirEntry) (found : option string)
  : error + option string :=
  match entries with
  | [] => inr found
  | entry :: rest =>
      if IsDir entry && String.eqb (Name entry) "current" then
        match Info entry with
        | inl e => inl e
        | inr modTime => findCurrent rest (Some modTime)
        end
      else findCurrent rest found
  end.

(** The case "a" of the switch; paths are joined as [filepath.Join] joins
    clean paths. *)
Definition archive (w : World) (outputDir modTime : string)
  : option error * list fsop :=
  let currentDir := outputDir +:+ "/current" in
  let archiveDir := outputDir +:+ "/archive/" +:+ modTime in
  match PathExist w archiveDir with
  | inl e => (Some e, [])
  | inr true => (Some step.Skip, [])
  | inr false =>
      match MkdirAll w (outputDir +:+ "/archive") with
      | Some e =>
          (Some (Wrap "make directory: " e),
           [OpMkdirAll (outputDir +:+ "/archive")])
      | None =>
          match Move w currentDir archiveDir with
          | Some e =>
              (Some (Wrap "move directory: " e),
               [OpMkdirAll (outputDir +:+ "/archive");
                OpMove currentDir archiveDir])
          | None =>
              (None,
               [OpMkdirAll (outputDir +:+ "/archive");
                OpMove currentDir archiveDir])
          end
      end
  end.

(** The switch on the input: [None] is the default case, which goes round
    the loop again. *)
Definition choose (w : World) (outputDir modTime input : string)
  : option (option error * list fsop) :=
  if String.eqb input "a" then Some (archive w outputDir modTime)
  else if String.eqb input "c" then Some (Some step.Skip, [])
  else if String.eqb input "q" then Some (Some step.Quit, [])
  else None.

(** [io.EOF]. *)
Definition EOF : error := New "EOF".

(** The loop of the interactive prompt; [lines] are the lines
    [reader.ReadString] will deliver, each with its newline, before it
    returns [io.EOF]. *)
Fixpoint ask (w : World) (outputDir modTime : string) (lines : list string)
  : Result :=
  match lines with
  | [] => {| err := Some EOF; ops := []; unread := [] |}
  | rawInput :: rest =>
      match choose w outputDir modTime (ToLower (TrimSpace rawInput)) with
      | Some (e, changes) => {| err := e; ops := changes; unread := rest |}
      | None => ask w outputDir modTime rest
      end
  end.

(** [ArchiveDataMigrationScriptsPrompt]. *)
Definition ArchiveDataMigrationScriptsPrompt (w : World)
    (nonInteractive : bool) (reader : list string) (outputDir : string)
  : Result :=
  match ReadDirFS w with
  | inl e => {| err := Some e; ops := []; unread := reader |}
  | inr outputDirEntries =>
      match findCurrent outputDirEntries None with
      | inl e => {| err := Some e; ops := []; unread := reader |}
      | inr None => {| err := None; ops := []; unread := reader |}
      | inr (Some modTime) =>
          if nonInteractive then
            let '(e, changes) := archive w outputDir modTime in
            {| err := e; ops := changes; unread := reader |}
          else ask w outputDir modTime reader
      end
  end.

End prompt.

(** ** Decimal numerals *)

(** The number a numeral continues from [acc], digit by digit. *)
Fixpoint uintValue (acc : Z) (d : Decimal.uint) : Z :=
  match d with
  | Decimal.Nil => acc
  | Decimal.D0 d => uintValue (10 * acc) d
  | Decimal.D1 d => uintValue (10 * acc + 1) d
  | Decimal.D2 d => uintValue (10 * acc + 2) d
  | Decimal.D3 d => uintValue (10 * acc + 3) d
  | Decimal.D4 d => uintValue (10 * acc + 4) d
  | Decimal.D5 d => uintValue (10 * acc + 5) d
  | Decimal.D6 d => uintValue (10 * acc + 6) d
  | Decimal.D7 d => uintValue (10 * acc + 7) d
  | Decimal.D8 d => uintValue (10 * acc + 8) d
  | Decimal.D9 d => uintValue (10 * acc + 9) d
  end.

(** A string of ASCII characters without a character that a JSON string
    literal escapes or forbids: no quote, no backslash, no control
    character. *)
Fixpoint plain (s : string) : bool :=
  match s with
  | String c rest =>
      let n := nat_of_ascii c in
      negb (n =? 34)%nat && negb (n =? 92)%nat && negb (n <? 32)%nat
      && (n <? 128)%nat && plain rest
  | EmptyString => true
  end.

(** ** Concrete clusters, hubs and worlds *)

Module example.

Definition seg (dbid content : Z) (role : greenplum.Role) (port : Z)
    (host dir : string) : greenplum.SegConfig :=
  {| greenplum.DbID := dbid; greenplum.ContentID := content;
     greenplum.SegRole := role; greenplum.Port := port;
     greenplum.Hostname := host; greenplum.DataDir := dir |}.

(** A coordinator and one primary on the same host. *)
Definition singleHost : greenplum.Cluster :=
  {| greenplum.Primaries :=
       <[-1 := seg 1 (-1) greenplum.PrimaryRole 15432 "mdw"
                   "/data/master/gpseg-1"]>
       (<[0 := seg 2 0 greenplum.PrimaryRole 25432 "mdw"
                   "/data/primary/gpseg0"]> ∅);
     greenplum.Mirrors := ∅;
     greenplum.GPHome := "/usr/local/greenplum-db" |}.

(** A coordinator on its own host, two primaries and their mirrors on two
    segment hosts. *)
Definition twoHosts : greenplum.Cluster :=
  {| greenplum.Primaries :=
       <[-1 := seg 1 (-1) greenplum.PrimaryRole 15432 "mdw"
                   "/data/master/gpseg-1"]>
       (<[0 := seg 2 0 greenplum.PrimaryRole 25432 "sdw1"
                   "/data/primary/gpseg0"]>
       (<[1 := seg 3 1 greenplum.PrimaryRole 25432 "sdw2"
                   "/data/primary/gpseg1"]> ∅));
     greenplum.Mirrors :=
       <[0 := seg 4 0 greenplum.MirrorRole 25433 "sdw2"
                  "/data/mirror/gpseg0"]>
       (<[1 := seg 5 1 greenplum.MirrorRole 25433 "sdw1"
                  "/data/mirror/gpseg1"]> ∅);
     greenplum.GPHome := "/usr/local/greenplum-db" |}.

Definition stateDir : string := "/home/gpadmin/.gpupgrade".

(** A hub over [twoHosts], as [hub.New] makes it. *)
Definition hub : Server := NewServer (Some twoHosts) 7527 6416 stateDir.

Definition sdw1 : idl.Connection :=
  {| idl.Conn := 1%nat; idl.Hostname := "sdw1" |}.
Definition sdw2 : idl.Connection :=
  {| idl.Conn := 2%nat; idl.Hostname := "sdw2" |}.

(** The hub with connections to both segment hosts in its cache. *)
Definition connectedHub : Server := set_agentConns [sdw1; sdw2] hub.

Definition deadlineExceeded : error := New "context deadline exceeded".
Definition exitStatus : error := New "exit status 255".
Definition closing : error := StatusErr Unavailable "transport is closing".

(** A world in which a dial of [sdw1] succeeds and any other dial times
    out, the connection to [sdw1] is ready and the one to [sdw2] is not,
    the agent on [sdw1] exits on [StopAgent] and the agent on [sdw2]
    replies, no agent listens for [RestartAgents], and the remote command
    works on [sdw1] only. *)
Definition world : Env :=
  {| grpcDialer := λ target,
       if String.eqb target "sdw1:6416" then inr 1%nat
       else inl deadlineExceeded;
     connStates := <[1%nat := Ready]> (<[2%nat := TransientFailure]> ∅);
     StopAgentRPC := λ conn,
       if String.eqb (idl.Hostname conn) "sdw1" then Some closing else None;
     DialContext := λ _, inl deadlineExceeded;
     ConnClose := λ _, None;
     GetGpupgradePath := inr "/usr/local/bin/gpupgrade";
     CommandOutput := λ _ args,
       if bool_decide (head args = Some "sdw1") then inr ""
       else inl exitStatus;
     mapRange := keys;
     completion := λ _ l, l |}.

(** A world in which every dial succeeds, every connection is ready, and
    the remote command works on every host. *)
Definition healthy : Env :=
  {| grpcDialer := λ target,
       if String.eqb target "sdw1:6416" then inr 1%nat else inr 2%nat;
     connStates := <[1%nat := Ready]> (<[2%nat := Ready]> ∅);
     StopAgentRPC := λ _, Some closing;
     DialContext := λ _, inl deadlineExceeded;
     ConnClose := λ _, None;
     GetGpupgradePath := inr "/usr/local/bin/gpupgrade";
     CommandOutput := λ _ _, inr "";
     mapRange := λ m, reverse (keys m);
     completion := λ _ l, reverse l |}.

Definition sdw3 : idl.Connection :=
  {| idl.Conn := 3%nat; idl.Hostname := "sdw3" |}.

(** The hub with connections to three hosts in its cache. *)
Definition threeAgents : Server := set_agentConns [sdw1; sdw2; sdw3] hub.

(** A world in which every connection is ready, the agent on [sdw1] exits
    on [StopAgent], the agent on [sdw2] replies, and the call to any other
    host times out. *)
Definition stopping : Env :=
  {| grpcDialer := λ _, inl deadlineExceeded;
     connStates :=
       <[1%nat := Ready]> (<[2%nat := Ready]> (<[3%nat := Ready]> ∅));
     StopAgentRPC := λ conn,
       if String.eqb (idl.Hostname conn) "sdw1" then Some closing
       else if String.eqb (idl.Hostname conn) "sdw2" then None
       else Some deadlineExceeded;
     DialContext := λ _, inl deadlineExceeded;
     ConnClose := λ _, None;
     GetGpupgradePath := inr "/usr/local/bin/gpupgrade";
     CommandOutput := λ _ _, inr "";
     mapRange := keys;
     completion := λ _ l, l |}.

(** An operating system on which no call fails. *)
Definition reliable : fs.OS :=
  {| fs.StatErr := λ _, None; fs.OpenErr := λ _, None;
     fs.WriteFileErr := λ _, None |}.

(** The [%q] verb on a string that holds nothing to escape. *)
Definition quoted (s : string) : string := dq +:+ s +:+ dq.

Definition database (name : string) : commanders.DatabaseInfo :=
  {| commanders.Datname := name; commanders.QuotedDatname := name;
     commanders.NumSeedScripts := 1 |}.

Definition psqlFailure : error := New "psql: exit status 3".

(** [GenerateScriptsPerDatabase] failing for one database only, in its
    last command, when the seed scripts have all run and filled the bar. *)
Definition generateFailsFor (name : string)
  : commanders.DatabaseInfo → commanders.generated :=
  λ d, {| commanders.gen_err :=
            if String.eqb (commanders.Datname d) name then Some psqlFailure
            else None;
          commanders.gen_filled := true |}.

End example.

(** ** More concrete worlds *)

Module sample.

(** [example.world], with the map iteration visiting the keys in the
    reverse order. *)
Definition backwards : Env :=
  {| grpcDialer := grpcDialer example.world;
     connStates := connStates example.world;
     StopAgentRPC := StopAgentRPC example.world;
     DialContext := DialContext example.world;
     ConnClose := ConnClose example.world;
     GetGpupgradePath := GetGpupgradePath example.world;
     CommandOutput := CommandOutput example.world;
     mapRange := λ m, reverse (keys m);
     completion := completion example.world |}.

(** An output directory with the scripts of an earlier run, not yet
    archived, on a file system that refuses nothing. *)
Definition scripts : prompt.World :=
  {| prompt.ReadDirFS :=
       inr [ {| prompt.Name := "archive"; prompt.IsDir := true;
                prompt.Info := inr "20230101T0000" |};
             {| prompt.Name := "current"; prompt.IsDir := true;
                prompt.Info := inr "20230512T0930" |} ];
     prompt.PathExist := λ _, inr false;
     prompt.MkdirAll := λ _, None;
     prompt.Move := λ _ _, None |}.

(** The end of a line. *)
Definition newline : string := String (ascii_of_nat 10) EmptyString.

End sample.

(** * Properties *)

(** ** Lists, maps and aggregates *)

Lemma foldl_snoc {A} (l acc : list A) :
  foldl (λ hosts host, hosts ++ [host]) acc l = acc ++ l.
Proof.
  revert acc. induction l as [|x l IH]; intros acc; simpl.
  - by rewrite app_nil_r.
  - rewrite IH. by rewrite <- app_assoc.
Qed.

Lemma elem_of_option_list {A} (o : option A) x :
  x ∈ option_list o ↔ o = Some x.
Proof.
  destruct o as [y|]; simpl.
  - rewrite list_elem_of_singleton. naive_solver.
  - rewrite elem_of_nil. naive_solver.
Qed.

Lemma elem_of_keys (m : gmap string bool) h : h ∈ keys m ↔ is_Some (m !! h).
Proof.
  unfold keys. rewrite list_elem_of_fmap. split.
  - intros [[k v] [-> Hin]]. apply elem_of_map_to_list in Hin. eauto.
  - intros [v Hv]. exists (h, v). split; [done|].
    by apply elem_of_map_to_list.
Qed.

Lemma NoDup_keys (m : gmap string bool) : NoDup (keys m).
Proof. apply NoDup_fst_map_to_list. Qed.

Lemma foldl_Append_Errors errs l :
  foldl errorlist.Append (Some (Errors l)) errs = Some (Errors (l ++ errs)).
Proof.
  revert l. induction errs as [|e errs IH]; intros l; simpl.
  - by rewrite app_nil_r.
  - rewrite IH. by rewrite <- app_assoc.
Qed.

(** Aggregating from nil gives nil for no error, and otherwise the list of
    all of them, in order. *)
Lemma foldl_Append_None errs :
  foldl errorlist.Append None errs
  = match errs with [] => None | _ => Some (Errors errs) end.
Proof.
  destruct errs as [|e errs]; [done|]. simpl. apply foldl_Append_Errors.
Qed.

Lemma members_foldl_Append errs :
  errorlist.members (foldl errorlist.Append None errs) = errs.
Proof. rewrite foldl_Append_None. by destruct errs. Qed.

Lemma world_ok : Env_ok example.world.
Proof. split; reflexivity. Qed.


(** ** AgentHosts *)

Lemma insert_hosts_lookup (segs : list greenplum.SegConfig)
    (m : gmap string bool) h :
  is_Some (foldl (λ m seg, <[greenplum.Hostname seg := true]> m) m segs !! h)
  ↔ h ∈ greenplum.Hostname <$> segs ∨ is_Some (m !! h).
Proof.
  revert m. induction segs as [|s segs IH]; intros m; simpl.
  - rewrite elem_of_nil. tauto.
  - rewrite IH, elem_of_cons.
    destruct (decide (greenplum.Hostname s = h)) as [->|Hne].
    + rewrite lookup_insert_eq. split; [|intros; right]; eauto.
    + rewrite lookup_insert_ne by done. split; intros [H|H]; eauto.
      destruct H as [H|H]; [congruence | eauto].
Qed.

(** The segments of a cluster are the values of its two maps. *)
Lemma elem_of_segments c s :
  s ∈ greenplum.segments c ↔
  ∃ k, greenplum.Primaries c !! k = Some s
       ∨ greenplum.Mirrors c !! k = Some s.
Proof.
  unfold greenplum.segments, greenplum.contents. rewrite list_elem_of_bind.
  split.
  - intros (k & Hin & _). exists k.
    rewrite elem_of_app, !elem_of_option_list in Hin. done.
  - intros (k & Hk). exists k. split.
    + rewrite elem_of_app, !elem_of_option_list. done.
    + rewrite merge_sort_Permutation, elem_of_elements, elem_of_union,
        !elem_of_dom.
      destruct Hk as [Hk|Hk]; rewrite Hk; eauto.
Qed.

Lemma elem_of_SelectSegments sel c s :
  s ∈ greenplum.SelectSegments sel c
  ↔ s ∈ greenplum.segments c ∧ sel s = true.
Proof.
  unfold greenplum.SelectSegments. rewrite !list_elem_of_In. apply filter_In.
Qed.

Lemma elem_of_uniqueHosts c h :
  is_Some (uniqueHosts c !! h) ↔
  ∃ k s, (greenplum.Primaries c !! k = Some s
          ∨ greenplum.Mirrors c !! k = Some s)
         ∧ greenplum.IsCoordinator s = false
         ∧ greenplum.Hostname s = h.
Proof.
  unfold uniqueHosts.
  rewrite insert_hosts_lookup, lookup_empty, list_elem_of_fmap.
  split.
  - intros [(s & -> & Hs)|[? ?]]; [|done].
    apply elem_of_SelectSegments in Hs as [Hs Hsel].
    apply elem_of_segments in Hs as [k Hk]. exists k, s. split; [done|].
    split; [|done]. unfold excludingCoordinator in Hsel.
    by apply negb_true_iff in Hsel.
  - intros (k & s & Hk & Hc & <-). left. exists s. split; [done|].
    apply elem_of_SelectSegments. split.
    + apply elem_of_segments. eauto.
    + unfold excludingCoordinator. by rewrite Hc.
Qed.

Lemma firstOccurrences_elem seen l x :
  x ∈ firstOccurrences seen l ↔ x ∈ l ∧ x ∉ seen.
Proof.
  revert seen. induction l as [|y l IH]; intros seen; simpl.
  - rewrite elem_of_nil. tauto.
  - destruct (decide (y ∈ seen)) as [Hy|Hy].
    + rewrite IH, elem_of_cons. split; [tauto|].
      intros [[->|H] Hn]; tauto.
    + rewrite !elem_of_cons, IH, elem_of_cons. split.
      * intros [->|[H Hn]]; tauto.
      * intros [[->|H] Hn]; [tauto|].
        destruct (decide (x = y)); [tauto|]. right. split; [done|]. tauto.
Qed.

Lemma firstOccurrences_NoDup seen l : NoDup (firstOccurrences seen l).
Proof.
  revert seen. induction l as [|y l IH]; intros seen; simpl.
  - constructor.
  - destruct (decide (y ∈ seen)); [apply IH|].
    constructor; [|apply IH].
    rewrite firstOccurrences_elem, elem_of_cons. tauto.
Qed.

(** The keys of the map of hosts are the first occurrences, in some
    order. *)
Lemma keys_uniqueHosts c : keys (uniqueHosts c) ≡ₚ AgentHosts_insertionOrder c.
Proof.
  apply NoDup_Permutation.
  - apply NoDup_keys.
  - apply firstOccurrences_NoDup.
  - intros h. unfold AgentHosts_insertionOrder.
    rewrite elem_of_keys, firstOccurrences_elem, elem_of_nil.
    unfold uniqueHosts. rewrite insert_hosts_lookup, lookup_empty.
    split; [intros [?|[? ?]]; [tauto|done] | tauto].
Qed.

Section AgentHosts.

(** The order of the map iteration: any order that visits every key
    once. *)
Context (range : gmap string bool → list string).
Context (range_legal : ∀ m, range m ≡ₚ keys m).

(** The appending loop returns the keys as the iteration visits them. *)
Lemma AgentHosts_range c : AgentHosts range c = range (uniqueHosts c).
Proof. unfold AgentHosts. by rewrite foldl_snoc. Qed.

(** C6, as amended: whatever the order of the map iteration, the list
    [AgentHosts] returns has no duplicates and holds exactly the hostnames
    of the segments that are not coordinator segments (content id other
    than -1): each such host once, however many segments share it.  The
    coordinator's hostname is therefore in the list exactly when some
    other segment runs on the coordinator's host. *)
Theorem AgentHosts_distinct_segment_hosts c :
  NoDup (AgentHosts range c)
  ∧ ∀ h, h ∈ AgentHosts range c ↔
         ∃ k s, (greenplum.Primaries c !! k = Some s
                 ∨ greenplum.Mirrors c !! k = Some s)
                ∧ greenplum.IsCoordinator s = false
                ∧ greenplum.Hostname s = h.
Proof.
  rewrite AgentHosts_range. split.
  - rewrite range_legal. apply NoDup_keys.
  - intros h. rewrite range_legal, elem_of_keys. apply elem_of_uniqueHosts.
Qed.

(** C7, as amended: [AgentHosts] returns the hostnames of the insertion
    order of first occurrence, but in the order of the map iteration,
    which Go leaves unspecified: the result is a permutation of the
    first-occurrence list. *)
Theorem AgentHosts_permutes_insertion_order c :
  AgentHosts range c ≡ₚ AgentHosts_insertionOrder c.
Proof.
  rewrite AgentHosts_range, range_legal. apply keys_uniqueHosts.
Qed.

End AgentHosts.

(** Every permutation of the first-occurrence list is what [AgentHosts]
    returns under some legal order of the map iteration. *)
Lemma AgentHosts_any_order c l :
  l ≡ₚ AgentHosts_insertionOrder c →
  ∃ range, (∀ m, range m ≡ₚ keys m) ∧ AgentHosts range c = l.
Proof.
  intros Hl.
  exists (λ m, if decide (m = uniqueHosts c) then l else keys m). split.
  - intros m. destruct (decide (m = uniqueHosts c)) as [->|]; [|done].
    rewrite Hl. symmetry. apply keys_uniqueHosts.
  - rewrite AgentHosts_range. by rewrite decide_True.
Qed.

Lemma AgentHosts_distinct_segment_hosts_witness :
  (∀ m, reverse (keys m) ≡ₚ keys m)
  ∧ NoDup (AgentHosts (λ m, reverse (keys m)) example.twoHosts)
  ∧ ∀ h, h ∈ AgentHosts (λ m, reverse (keys m)) example.twoHosts ↔
         ∃ k s, (greenplum.Primaries example.twoHosts !! k = Some s
                 ∨ greenplum.Mirrors example.twoHosts !! k = Some s)
                ∧ greenplum.IsCoordinator s = false
                ∧ greenplum.Hostname s = h.
Proof.
  split; [intros m; apply reverse_Permutation|].
  apply (AgentHosts_distinct_segment_hosts (λ m, reverse (keys m))).
  intros m. apply reverse_Permutation.
Defined.

(** C6 as stated fails: the coordinator of [example.singleHost] runs on
    "mdw", and "mdw" is in the list, since a primary runs there too. *)
Lemma AgentHosts_includes_coordinator_host :
  greenplum.coordinatorHostname example.singleHost = Some "mdw"
  ∧ "mdw" ∈ AgentHosts keys example.singleHost.
Proof. split; [reflexivity|]. vm_compute. apply list_elem_of_here. Qed.

Lemma AgentHosts_permutes_insertion_order_witness :
  (∀ m, keys m ≡ₚ keys m)
  ∧ AgentHosts keys example.twoHosts
    ≡ₚ AgentHosts_insertionOrder example.twoHosts.
Proof.
  split; [reflexivity|].
  apply (AgentHosts_permutes_insertion_order keys). reflexivity.
Defined.

(** C7 as stated fails: reversing the canonical order is a legal order of
    iteration, and under it [AgentHosts] returns sdw2 before sdw1, while
    sdw1 occurs first in the segments. *)
Lemma AgentHosts_not_insertion_order :
  (∀ m, reverse (keys m) ≡ₚ keys m)
  ∧ AgentHosts_insertionOrder example.twoHosts = ["sdw1"; "sdw2"]
  ∧ AgentHosts (λ m, reverse (keys m)) example.twoHosts = ["sdw2"; "sdw1"]
  ∧ AgentHosts (λ m, reverse (keys m)) example.twoHosts
    ≠ AgentHosts_insertionOrder example.twoHosts.
Proof.
  split; [intros m; apply reverse_Permutation|].
  split; [reflexivity|]. split; [reflexivity|].
  vm_compute. discriminate.
Qed.

(** ** StopAgents *)

(** The request of [StopAgents] turns a [StopAgent] call that returned no
    error into the failure "failed to stop agent on host: <host>", an error
    whose gRPC status is Unavailable with the message "transport is
    closing" into success (nil), and any other error into a failure that
    names the host and wraps the error. *)
Lemma request_outcomes rpc (conn : idl.Connection) :
  (rpc conn = None →
   request rpc conn
   = Some (New ("failed to stop agent on host: " +:+ idl.Hostname conn)))
  ∧ (∀ err, rpc conn = Some err →
       Convert err = (Unavailable, "transport is closing") →
       request rpc conn = None)
  ∧ (∀ err, rpc conn = Some err →
       Convert err ≠ (Unavailable, "transport is closing") →
       request rpc conn
       = Some (Wrap ("failed to stop agent on host " +:+ idl.Hostname conn
                     +:+ " : ") err)
       ∧ Error (Wrap ("failed to stop agent on host " +:+ idl.Hostname conn
                      +:+ " : ") err)
         = ("failed to stop agent on host " +:+ idl.Hostname conn +:+ " : ")
           +:+ Error err).
Proof.
  unfold request. split; [|split].
  - by intros ->.
  - intros err -> Hc. rewrite Hc. reflexivity.
  - intros err -> Hc. split; [|done].
    destruct (Convert err) as [code msg]; simpl.
    destruct (decide (code = Unavailable)) as [->|Hcode].
    + rewrite bool_decide_eq_true_2 by done. simpl.
      by destruct (String.eqb_spec msg "transport is closing") as [->|Hmsg].
    + by rewrite bool_decide_eq_false_2.
Qed.

(** The request is satisfied by the closing of the transport only. *)
Lemma request_None_iff rpc (conn : idl.Connection) :
  request rpc conn = None
  ↔ ∃ err, rpc conn = Some err
           ∧ Convert err = (Unavailable, "transport is closing").
Proof.
  destruct (request_outcomes rpc conn) as (Hreply & Hclosing & Hother).
  split.
  - intros Hnone. destruct (rpc conn) as [err|] eqn:Hrpc.
    + exists err. split; [done|].
      destruct (decide (Convert err = (Unavailable, "transport is closing")))
        as [|Hne]; [done|].
      destruct (Hother err eq_refl Hne) as [Hsome _]. congruence.
    + rewrite Hreply in Hnone by done. discriminate Hnone.
  - intros (err & Hrpc & Hc). by apply (Hclosing err).
Qed.

(** [StopAgents] as a whole: once [AgentConns] has returned the cached
    connections, its error holds what the request returned for each of them
    that did not stop, and nothing else. *)
Lemma StopAgents_collects env s r :
  Env_ok env →
  AgentConns env s = Returns r →
  ret_err r = None →
  ∃ err, StopAgents env s = Returns (err, after r, dials r)
         ∧ errorlist.members err
           ≡ₚ omap (request (StopAgentRPC env)) (agentConns (after r))
         ∧ (err = None
            ↔ omap (request (StopAgentRPC env)) (agentConns (after r)) = []).
Proof.
  intros Hok Hr Herr. unfold StopAgents. rewrite Hr. simpl. rewrite Herr.
  eexists. split; [reflexivity|]. unfold ExecuteRPC.
  rewrite members_foldl_Append. split.
  - by rewrite (completion_perm env Hok).
  - rewrite foldl_Append_None.
    pose proof (completion_perm env Hok idl.Connection
                  (agentConns (after r))) as Hperm.
    assert (omap (request (StopAgentRPC env))
              (completion env idl.Connection (agentConns (after r)))
            ≡ₚ omap (request (StopAgentRPC env)) (agentConns (after r)))
      as Hp by (by rewrite Hperm).
    destruct (omap _ (completion env _ _)) as [|e errs].
    + split; [|done]. intros _. by apply Permutation_nil_l in Hp.
    + split; [done|]. intros Hnil. rewrite Hnil in Hp.
      by apply Permutation_nil_r in Hp.
Qed.

(** C1: once [AgentConns] has returned the connections, [StopAgents] sends
    [StopAgent] on each of them and returns the aggregate of what its
    request makes of each call: a call that returned no error (a normal
    reply) is in the aggregate as the failure "failed to stop agent on
    host: <host>"; an error whose gRPC status is Unavailable with the
    message "transport is closing" is a success and adds nothing; any other
    error is in the aggregate as a failure that names the host and wraps the
    error.  The aggregate holds nothing else, and [StopAgents] returns nil
    exactly when the transport of every connection was closing. *)
Theorem StopAgents_request_outcomes env s r :
  Env_ok env →
  AgentConns env s = Returns r →
  ret_err r = None →
  let conns := agentConns (after r) in
  let failed conn :=
    New ("failed to stop agent on host: " +:+ idl.Hostname conn) in
  let failedWith conn err :=
    Wrap ("failed to stop agent on host " +:+ idl.Hostname conn +:+ " : ")
         err in
  let closing err := Convert err = (Unavailable, "transport is closing") in
  ∃ aggregate,
    StopAgents env s = Returns (aggregate, after r, dials r)
    ∧ errorlist.members aggregate ≡ₚ omap (request (StopAgentRPC env)) conns
    ∧ (∀ conn, conn ∈ conns →
         (StopAgentRPC env conn = None →
          request (StopAgentRPC env) conn = Some (failed conn)
          ∧ failed conn ∈ errorlist.members aggregate)
         ∧ (∀ err, StopAgentRPC env conn = Some err → closing err →
              request (StopAgentRPC env) conn = None)
         ∧ (∀ err, StopAgentRPC env conn = Some err → ¬ closing err →
              request (StopAgentRPC env) conn = Some (failedWith conn err)
              ∧ failedWith conn err ∈ errorlist.members aggregate
              ∧ Error (failedWith conn err)
                = ("failed to stop agent on host " +:+ idl.Hostname conn
                   +:+ " : ") +:+ Error err))
    ∧ (∀ e, e ∈ errorlist.members aggregate →
         ∃ conn, conn ∈ conns
                 ∧ ((StopAgentRPC env conn = None ∧ e = failed conn)
                    ∨ ∃ err, StopAgentRPC env conn = Some err
                             ∧ ¬ closing err ∧ e = failedWith conn err))
    ∧ (aggregate = None
       ↔ ∀ conn, conn ∈ conns →
           ∃ err, StopAgentRPC env conn = Some err ∧ closing err).
Proof.
  intros Hok Hr Herr conns failed failedWith closing.
  destruct (StopAgents_collects env s r Hok Hr Herr)
    as (aggregate & Hstop & Hperm & Hnil).
  fold conns in Hperm, Hnil.
  exists aggregate. split; [done|]. split; [done|].
  assert (∀ conn e, conn ∈ conns →
            request (StopAgentRPC env) conn = Some e →
            e ∈ errorlist.members aggregate) as Hin.
  { intros conn e Hconn He. rewrite Hperm. apply list_elem_of_omap.
    by exists conn. }
  split; [|split].
  - intros conn Hconn.
    destruct (request_outcomes (StopAgentRPC env) conn)
      as (Hreply & Hclosing & Hother).
    split; [|split].
    + intros Hrpc. split; [by apply Hreply|].
      apply (Hin conn); [done|by apply Hreply].
    + intros err Hrpc Hc. by apply (Hclosing err).
    + intros err Hrpc Hc. destruct (Hother err Hrpc Hc) as [Hreq Herror].
      split; [done|]. split; [by apply (Hin conn)|done].
  - intros e He. rewrite Hperm in He.
    apply list_elem_of_omap in He as (conn & Hconn & Hreq).
    exists conn. split; [done|].
    destruct (request_outcomes (StopAgentRPC env) conn)
      as (Hreply & Hclosing & Hother).
    destruct (StopAgentRPC env conn) as [err|] eqn:Hrpc.
    + right. exists err.
      destruct (decide (Convert err = (Unavailable, "transport is closing")))
        as [Hc|Hc].
      * rewrite (Hclosing err eq_refl Hc) in Hreq. discriminate Hreq.
      * destruct (Hother err eq_refl Hc) as [Hsome _].
        rewrite Hsome in Hreq. injection Hreq as <-. done.
    + left. rewrite Hreply in Hreq by done. by injection Hreq as <-.
  - rewrite Hnil. split.
    + intros Hempty conn Hconn. apply request_None_iff.
      destruct (request (StopAgentRPC env) conn) as [e|] eqn:Hreq; [|done].
      assert (e ∈ omap (request (StopAgentRPC env)) conns) as He
        by (apply list_elem_of_omap; by exists conn).
      rewrite Hempty in He. by apply elem_of_nil in He.
    + intros Hall.
      destruct (omap (request (StopAgentRPC env)) conns) as [|e errs] eqn:Ho;
        [done|].
      assert (e ∈ omap (request (StopAgentRPC env)) conns) as He
        by (rewrite Ho; apply list_elem_of_here).
      apply list_elem_of_omap in He as (conn & Hconn & Hreq).
      apply Hall, request_None_iff in Hconn. congruence.
Qed.

Lemma StopAgents_request_outcomes_witness :
  (Env_ok example.stopping
   ∧ AgentConns example.stopping example.threeAgents
     = Returns {| ret_conns := [example.sdw1; example.sdw2; example.sdw3];
                  ret_err := None; after := example.threeAgents;
                  dials := [] |}
   ∧ StopAgentRPC example.stopping example.sdw1 = Some example.closing
   ∧ StopAgentRPC example.stopping example.sdw2 = None
   ∧ StopAgentRPC example.stopping example.sdw3
     = Some example.deadlineExceeded)
  ∧ ∃ aggregate,
      StopAgents example.stopping example.threeAgents
      = Returns (aggregate, example.threeAgents, [])
      ∧ errorlist.members aggregate
        ≡ₚ [New "failed to stop agent on host: sdw2";
            Wrap "failed to stop agent on host sdw3 : "
                 example.deadlineExceeded]
      ∧ aggregate ≠ None.
Proof.
  split; [repeat split; reflexivity|].
  destruct (StopAgents_request_outcomes example.stopping example.threeAgents
              {| ret_conns := [example.sdw1; example.sdw2; example.sdw3];
                 ret_err := None; after := example.threeAgents;
                 dials := [] |})
    as (aggregate & Hstop & Hperm & _ & _ & Hnil).
  - split; reflexivity.
  - reflexivity.
  - reflexivity.
  - exists aggregate. split; [exact Hstop|]. split; [exact Hperm|].
    intros Hnone. destruct Hnil as [Hclosing _].
    destruct (Hclosing Hnone example.sdw2) as (err & Hrpc & _).
    + apply list_elem_of_further, list_elem_of_here.
    + discriminate Hrpc.
Defined.

(** ** AgentConns *)

Lemma notReadyHosts_filter states conns :
  notReadyHosts states conns
  = idl.Hostname <$>
      filter (λ conn, GetState states (idl.Conn conn) ≠ Ready) conns.
Proof.
  induction conns as [|conn conns IH]; [done|]. simpl.
  rewrite filter_cons. destruct (decide _); simpl; by rewrite IH.
Qed.

Lemma notReadyHosts_nonempty states conns conn :
  conn ∈ conns → GetState states (idl.Conn conn) ≠ Ready →
  notReadyHosts states conns ≠ [].
Proof.
  intros Hin Hst. rewrite notReadyHosts_filter.
  assert (conn ∈ filter
            (λ conn, GetState states (idl.Conn conn) ≠ Ready) conns) as H
    by (by apply list_elem_of_filter).
  destruct (filter _ conns); [by apply elem_of_nil in H|done].
Qed.

Lemma EnsureConnsAreReady_not_ready states conns :
  notReadyHosts states conns ≠ [] →
  EnsureConnsAreReady states conns
  = Some (New ("the connections to the following hosts were not ready: "
               +:+ Join (notReadyHosts states conns) ",")).
Proof.
  intros Hne. unfold EnsureConnsAreReady.
  by destruct (notReadyHosts states conns).
Qed.

Lemma EnsureConnsAreReady_ready states conns :
  Forall (λ conn, GetState states (idl.Conn conn) = Ready) conns →
  EnsureConnsAreReady states conns = None.
Proof.
  intros Hall. unfold EnsureConnsAreReady.
  assert (notReadyHosts states conns = []) as ->; [|done].
  induction Hall as [|conn conns Hc _ IH]; [done|]. simpl.
  destruct (decide _); [done|apply IH].
Qed.




Lemma dialAgents_partial dial port pre host rest conns err acc dialed :
  Forall2 (λ h conn, dial (h +:+ ":" +:+ Itoa port) = inr conn) pre conns →
  dial (host +:+ ":" +:+ Itoa port) = inl err →
  dialAgents dial port (pre ++ host :: rest) acc dialed
  = (Some (Wrap "agent connections: " err),
     acc ++ zip_with connect pre conns,
     dialed ++ ((λ h, h +:+ ":" +:+ Itoa port) <$> (pre ++ [host]))).
Proof.
  intros Hpre Hfail. revert acc dialed.
  induction Hpre as [|h conn pre conns Hh _ IH]; intros acc dialed; simpl.
  - rewrite Hfail. by rewrite app_nil_r.
  - rewrite Hh, IH. by rewrite <- !app_assoc.
Qed.

(** C10: when the first call of [AgentConns] dials the hosts [pre] with
    success (at least one) and fails on the next host, it returns the error
    and yet leaves the connections to [pre] in the cache; the hosts after
    the failing one are not dialled.  A later call, with those connections
    Ready, returns them alone and dials nothing. *)
Theorem AgentConns_partial_dial_is_cached env s c pre host rest conns err :
  agentConns s = [] →
  Source s = Some c →
  AgentHosts (mapRange env) c = pre ++ host :: rest →
  pre ≠ [] →
  Forall2 (λ h conn,
             grpcDialer env (h +:+ ":" +:+ Itoa (AgentPort s)) = inr conn)
          pre conns →
  grpcDialer env (host +:+ ":" +:+ Itoa (AgentPort s)) = inl err →
  let cached := zip_with connect pre conns in
  let s' := set_agentConns cached s in
  length cached = length pre
  ∧ AgentConns env s
    = Returns
        {| ret_conns := [];
           ret_err := Some (Wrap "agent connections: " err);
           after := s';
           dials := (λ h, h +:+ ":" +:+ Itoa (AgentPort s))
                      <$> (pre ++ [host]) |}
  ∧ ∀ env',
      Forall (λ conn, GetState (connStates env') (idl.Conn conn) = Ready)
             cached →
      AgentConns env' s'
      = Returns {| ret_conns := cached; ret_err := None;
                   after := s'; dials := [] |}.
Proof.
  intros Hnil Hsrc Hhosts Hpre Hdials Hfail cached s'.
  assert (length cached = length pre) as Hlen.
  { subst cached. rewrite length_zip_with.
    apply Forall2_length in Hdials. lia. }
  split; [done|]. split.
  - unfold AgentConns. rewrite Hnil, Hsrc, Hhosts.
    by rewrite (dialAgents_partial _ _ _ _ _ _ _ _ _ Hdials Hfail).
  - intros env' Hready. unfold AgentConns. simpl.
    destruct cached as [|c0 l] eqn:E.
    + destruct pre; [done|]. simpl in Hlen. lia.
    + by rewrite (EnsureConnsAreReady_ready _ _ Hready).
Qed.

Lemma AgentConns_partial_dial_is_cached_witness :
  (agentConns example.hub = []
   ∧ Source example.hub = Some example.twoHosts
   ∧ AgentHosts (mapRange example.world) example.twoHosts
     = ["sdw1"] ++ "sdw2" :: []
   ∧ grpcDialer example.world "sdw1:6416" = inr 1%nat
   ∧ grpcDialer example.world "sdw2:6416" = inl example.deadlineExceeded)
  ∧ AgentConns example.world example.hub
    = Returns
        {| ret_conns := [];
           ret_err := Some (Wrap "agent connections: "
                                 example.deadlineExceeded);
           after := set_agentConns [example.sdw1] example.hub;
           dials := ["sdw1:6416"; "sdw2:6416"] |}
  ∧ AgentConns example.world (set_agentConns [example.sdw1] example.hub)
    = Returns
        {| ret_conns := [example.sdw1]; ret_err := None;
           after := set_agentConns [example.sdw1] example.hub;
           dials := [] |}.
Proof.
  split; [repeat split; reflexivity|].
  destruct (AgentConns_partial_dial_is_cached example.world example.hub
              example.twoHosts ["sdw1"] "sdw2" [] [1%nat]
              example.deadlineExceeded)
    as (_ & Hfirst & Hnext).
  - reflexivity.
  - reflexivity.
  - reflexivity.
  - discriminate.
  - repeat constructor.
  - reflexivity.
  - split; [exact Hfirst|]. apply Hnext. repeat constructor.
Defined.

(** ** RestartAgents *)

(** Whatever the order in which the goroutines finish, [RestartAgents]
    returns the hosts whose goroutine restarted an agent and an aggregate of
    the errors of all goroutines that failed, none dropped and none added;
    the aggregate is nil exactly when no goroutine failed. *)
Lemma RestartAgents_aggregates env hostnames port stateDir :
  Env_ok env →
  let units := restartAgent env port stateDir <$> hostnames in
  let result := RestartAgents env hostnames port stateDir in
  result.1 ≡ₚ omap sentHost units
  ∧ errorlist.members result.2 ≡ₚ omap sentErr units
  ∧ (result.2 = None ↔ omap sentErr units = []).
Proof.
  intros Hok units result. subst result. unfold RestartAgents. fold units.
  cbv zeta. simpl fst. simpl snd.
  rewrite foldl_snoc, members_foldl_Append. simpl.
  pose proof (completion_perm env Hok _ units) as Hperm.
  split; [by rewrite Hperm|]. split; [by rewrite Hperm|].
  rewrite foldl_Append_None.
  assert (omap sentErr (completion env sent units) ≡ₚ omap sentErr units)
    as He by (by rewrite Hperm).
  destruct (omap sentErr (completion env sent units)) as [|e l] eqn:E.
  - apply Permutation_nil_l in He. by rewrite He.
  - split; [done|]. intros Hnil. rewrite Hnil in He.
    by apply Permutation_nil_r in He.
Qed.

(** The fan-out of [RestartAgents] with exactly one failing host: the
    aggregate is that host's error, alone. *)
Lemma RestartAgents_one_failure env hostnames port stateDir e :
  Env_ok env →
  omap sentErr (restartAgent env port stateDir <$> hostnames) = [e] →
  (RestartAgents env hostnames port stateDir).2 = Some (Errors [e]).
Proof.
  intros Hok He. unfold RestartAgents. simpl.
  rewrite foldl_Append_None.
  pose proof (completion_perm env Hok _
                (restartAgent env port stateDir <$> hostnames)) as Hperm.
  assert (omap sentErr (completion env sent
            (restartAgent env port stateDir <$> hostnames)) ≡ₚ [e]) as Hp
    by (by rewrite Hperm, He).
  apply Permutation_singleton_r in Hp. by rewrite Hp.
Qed.

Lemma RestartAgents_no_failure env hostnames port stateDir :
  Env_ok env →
  omap sentErr (restartAgent env port stateDir <$> hostnames) = [] →
  (RestartAgents env hostnames port stateDir).2 = None.
Proof.
  intros Hok He.
  by apply (RestartAgents_aggregates env hostnames port stateDir Hok).
Qed.




(** ** The fan-out of GenerateDataMigrationScripts *)

(** The first goroutine of a schedule takes its step from a known state. *)
Lemma foldl_step {A B} (f : A → B → A) a b x l :
  f a x = b → foldl f a (x :: l) = foldl f b l.
Proof. by intros <-. Qed.

Ltac fanout_step H1 H2 :=
  erewrite foldl_step;
  [| unfold commanders.step; simpl; rewrite ?H1, ?H2; simpl; reflexivity].

(** Evaluate the fan-out over two databases, one step at a time. *)
Ltac fanout_eval H1 H2 :=
  unfold commanders.generateFanout;
  change (commanders.sequential 2) with [0; 0; 0; 1; 1; 1]%nat;
  lazymatch goal with
  | |- context [commanders.run ?g [?d1; ?d2] ?sched] =>
      let Hrun := fresh "Hrun" in
      eassert (commanders.run g [d1; d2] sched = _) as Hrun;
      [ unfold commanders.run;
        change (commanders.launch [d1; d2])
          with {| commanders.err := None;
                  commanders.pcs := [commanders.AtAssign; commanders.AtAssign];
                  commanders.errChan := [];
                  commanders.bars := [false; false] |};
        repeat fanout_step H1 H2; reflexivity
      | cbv zeta; rewrite Hrun; reflexivity ]
  end.

(** Run one goroutine after the other, the fan-out returns the error of the
    one database that failed. *)
Lemma generateFanout_sequential generate d1 d2 e f1 :
  generate d1 = {| commanders.gen_err := Some e;
                   commanders.gen_filled := f1 |} →
  generate d2 = {| commanders.gen_err := None;
                   commanders.gen_filled := true |} →
  commanders.generateFanout generate [d1; d2] (commanders.sequential 2)
  = Some (Returns (Some (Errors [e]))).
Proof. intros H1 H2. fanout_eval H1 H2. Qed.

(** The goroutines share [err]: when the second assigns its nil between
    the first's assignment and the first's test, the failure is lost.  If
    the failing goroutine had filled its bar, the fan-out returns nil. *)
Lemma generateFanout_lost_update generate d1 d2 e :
  generate d1 = {| commanders.gen_err := Some e;
                   commanders.gen_filled := true |} →
  generate d2 = {| commanders.gen_err := None;
                   commanders.gen_filled := true |} →
  commanders.generateFanout generate [d1; d2] [0; 1; 0; 1]%nat
  = Some (Returns None).
Proof. intros H1 H2. fanout_eval H1 H2. Qed.

(** If it had not, its bar is neither filled nor aborted, and the fan-out
    never gets past [progressBar.Wait()]. *)
Lemma generateFanout_lost_update_hangs generate d1 d2 e :
  generate d1 = {| commanders.gen_err := Some e;
                   commanders.gen_filled := false |} →
  generate d2 = {| commanders.gen_err := None;
                   commanders.gen_filled := true |} →
  commanders.generateFanout generate [d1; d2] [0; 1; 0; 1]%nat
  = Some Blocks.
Proof. intros H1 H2. fanout_eval H1 H2. Qed.

(** And when the first assigns its error between the second's assignment
    and the second's test, the database that succeeded reports the failure
    too. *)
Lemma generateFanout_false_failure generate d1 d2 e f1 :
  generate d1 = {| commanders.gen_err := Some e;
                   commanders.gen_filled := f1 |} →
  generate d2 = {| commanders.gen_err := None;
                   commanders.gen_filled := true |} →
  commanders.generateFanout generate [d1; d2] [1; 0; 1; 1; 0; 0]%nat
  = Some (Returns (Some (Errors [e; e]))).
Proof. intros H1 H2. fanout_eval H1 H2. Qed.

(** C2: a fan-out in which exactly one target fails must return that
    target's error.  The fan-out of [GenerateDataMigrationScripts] over the
    databases postgres and testdb, of which postgres alone fails, returns
    nil when the goroutine of testdb assigns the shared [err] between the
    assignment and the test of the goroutine of postgres: all goroutines
    have finished and the one failure is dropped. *)
Theorem generateFanout_drops_the_failure :
  commanders.generateFanout (example.generateFailsFor "postgres")
    [example.database "postgres"; example.database "testdb"]
    [0; 1; 0; 1]%nat
  = Some (Returns None).
Proof. vm_compute. reflexivity. Qed.

(** ** Stop *)

(** Without an installed server ([Start] never got to install one) and
    without closing connections, [Stop] only sets [stopped] to nil, and a
    second [Stop] changes nothing. *)
Lemma Stop_twice_without_server states s :
  server s = None →
  Stop states false s = Returns (states, set_stopped None s)
  ∧ Stop states false (set_stopped None s)
    = Returns (states, set_stopped None s).
Proof. intros Hsrv. unfold Stop. simpl. by rewrite Hsrv. Qed.

(** [closeAgentConns] returns or blocks. *)
Lemma closeAgentConns_no_panic states conns :
  closeAgentConns states conns ≠ Panics.
Proof.
  revert states. induction conns as [|conn conns IH]; intros states; simpl.
  - done.
  - unfold closeAgentConn. destruct (decide _); simpl; [done|]. apply IH.
Qed.

(** [Stop] leaves the server installed. *)
Lemma Stop_keeps_server states b s states' s' :
  Stop states b s = Returns (states', s') →
  server s' = server s ∧ stopped s' = None.
Proof.
  unfold Stop. intros Hstop.
  destruct (if b then _ else _) as [st| |]; simpl in Hstop; try done.
  destruct (server s) as [srv|] eqn:Hsrv; simpl in Hstop.
  - destruct (receive_stopped _) as [s1| |] eqn:Hr; simpl in Hstop;
      try done.
    injection Hstop as <- <-. split; [|done]. simpl.
    unfold receive_stopped in Hr.
    destruct (serving s); [unfold Start_signal in Hr|];
      destruct (stopped s) as [[|n]|] eqn:Hch; simpl in Hr;
      try rewrite Hch in Hr; try done;
      injection Hr as <-; simpl; done.
  - injection Hstop as <- <-. done.
Qed.

(** Once [Stop] has returned on a server that [Start] had installed, every
    later [Stop] blocks: [s.server] is still there and [s.stopped] is the
    nil channel. *)
Lemma Stop_after_Stop_blocks states b s states' s' :
  Stop states b s = Returns (states', s') →
  is_Some (server s) →
  ∀ states'' b', Stop states'' b' s' = Blocks.
Proof.
  intros Hstop [srv Hsrv] states'' b'.
  apply Stop_keeps_server in Hstop as [Hserver Hstopped].
  rewrite Hsrv in Hserver. unfold Stop.
  assert (receive_stopped
            (if serving s'
             then match Start_signal s' with
                  | Returns s1 => s1
                  | _ => s'
                  end
             else s') = Blocks) as Hblocks.
  { unfold Start_signal, receive_stopped. rewrite Hstopped.
    destruct (serving s'); by rewrite Hstopped. }
  destruct (if b' then _ else _) as [st| |] eqn:Hclose; simpl.
  - rewrite Hserver. by rewrite Hblocks.
  - done.
  - destruct b'; [|done]. by apply closeAgentConns_no_panic in Hclose.
Qed.

(** A second [Stop(true)] blocks even without a server, when the first has
    closed a connection: the wait for a state change of the connection, now
    shut down, never ends. *)
Lemma second_Stop_true_blocks_on_closed_conns :
  Stop (connStates example.healthy) true example.connectedHub
  = Returns (<[2%nat := Shutdown]> (<[1%nat := Shutdown]>
               (connStates example.healthy)),
             set_stopped None example.connectedHub)
  ∧ Stop (<[2%nat := Shutdown]> (<[1%nat := Shutdown]>
            (connStates example.healthy)))
         true (set_stopped None example.connectedHub)
    = Blocks.
Proof. split; vm_compute; reflexivity. Qed.

(** C4: a second [Stop] after a completed [Stop] must be a no-op that
    returns.  On a hub that [Start] has brought to serve, the first
    [Stop(false)] returns, with [s.stopped] nil and [s.server] still set;
    the second [Stop], with either argument, finds [s.server != nil] and
    receives from the nil channel: it blocks. *)
Theorem second_Stop_blocks :
  let started := Start_enter None 1%nat example.hub in
  started.1 = None
  ∧ ∃ once,
      Stop ∅ false started.2 = Returns (∅, once)
      ∧ server once = Some 1%nat
      ∧ stopped once = None
      ∧ Stop ∅ false once = Blocks
      ∧ Stop ∅ true once = Blocks.
Proof.
  split; [reflexivity|]. eexists. split; [vm_compute; reflexivity|].
  repeat split; reflexivity.
Qed.

(** ** Writing the configuration file *)

Lemma writes_first name data (fs : fs.FS) :
  head (fs.writes name data fs) = Some (<[name := ""]> fs).
Proof. unfold fs.writes. simpl. by destruct data. Qed.

Lemma writes_other name data (fs : fs.FS) path :
  name ≠ path →
  Forall (λ fs', fs' !! path = fs !! path) (fs.writes name data fs).
Proof.
  intros Hne. unfold fs.writes. apply Forall_fmap, Forall_forall.
  intros n _. simpl. by rewrite lookup_insert_ne.
Qed.

Lemma substring_all s : substring 0 (String.length s) s = s.
Proof. induction s as [|c s IH]; [done|]. simpl. by rewrite IH. Qed.

Lemma last_fmap_seq {A} (f : nat → A) n :
  last (f <$> seq 0 (S n)) = Some (f n).
Proof. rewrite seq_S, fmap_app. apply last_snoc. Qed.

Lemma writes_final name data (fs : fs.FS) :
  fs.final fs (fs.writes name data fs) = <[name := data]> fs.
Proof.
  unfold fs.final, fs.writes. rewrite last_fmap_seq. simpl.
  by rewrite substring_all.
Qed.

(** Writing to a temporary file and renaming it never shows a partial file
    at the path, and leaves the data there. *)
Lemma AtomicallyWrite_never_partial tmp path data (fs : fs.FS) :
  tmp ≠ path →
  fs.never_partial path data fs (fs.AtomicallyWrite tmp path data fs)
  ∧ fs.final fs (fs.AtomicallyWrite tmp path data fs) !! path = Some data.
Proof.
  intros Hne. unfold fs.AtomicallyWrite. rewrite writes_final.
  unfold fs.Rename. rewrite lookup_insert_eq. split.
  - unfold fs.never_partial. apply Forall_app. split.
    + eapply Forall_impl; [by apply writes_other|]. simpl. by left.
    + apply Forall_singleton. right. by rewrite lookup_insert_eq.
  - unfold fs.final. rewrite last_snoc. simpl. by rewrite lookup_insert_eq.
Qed.

(** [Config.Save] rewrites the configuration file atomically. *)
Lemma Save_never_partial encode tmp stateDir c (fs : fs.FS) buffer :
  tmp ≠ config.GetConfigFile stateDir →
  encode c = inr buffer →
  fs.never_partial (config.GetConfigFile stateDir) buffer fs
    (config.Save encode tmp stateDir c fs).2
  ∧ fs.final fs (config.Save encode tmp stateDir c fs).2
      !! config.GetConfigFile stateDir = Some buffer.
Proof.
  intros Hne Henc. unfold config.Save. rewrite Henc. simpl.
  by apply AtomicallyWrite_never_partial.
Qed.

(** So does [config.Create], which bootstraps the file through [Save]. *)
Lemma Create_never_partial os quote encode tmp stateDir hubPort sourcePort
    sourceGPHome (fs : fs.FS) buffer :
  tmp ≠ config.GetConfigFile stateDir →
  encode (config.bootstrap hubPort sourcePort sourceGPHome) = inr buffer →
  fs.never_partial (config.GetConfigFile stateDir) buffer fs
    (config.Create os quote encode tmp stateDir hubPort sourcePort
       sourceGPHome fs).2.
Proof.
  intros Hne Henc. unfold config.Create, fs.PathExist.
  destruct (fs.StatErr os _); [by constructor|].
  destruct (bool_decide _); [by constructor|].
  by apply Save_never_partial.
Qed.

(** [commanders.CreateConfigFile] does not: whenever it writes the file,
    the file is first seen empty. *)
Lemma CreateConfigFile_not_atomic os quote stateDir hubPort (fs : fs.FS) :
  (CreateConfigFile os quote stateDir hubPort fs).2 ≠ [] →
  ¬ fs.never_partial (upgrade_GetConfigFile stateDir) (configText hubPort) fs
      (CreateConfigFile os quote stateDir hubPort fs).2.
Proof.
  unfold CreateConfigFile, fs.PathExist, fs.WriteFile.
  destruct (fs.StatErr os _); [done|].
  destruct (bool_decide _) eqn:Hexist; [done|].
  apply bool_decide_eq_false in Hexist.
  assert (fs !! upgrade_GetConfigFile stateDir = None) as Hnone.
  { destruct (fs !! _) eqn:E; [|done]. destruct Hexist. by eexists. }
  pose proof (writes_first (upgrade_GetConfigFile stateDir)
                (configText hubPort) fs) as Hh.
  destruct (fs.writes _ _ fs) as [|first rest]; [done|].
  injection Hh as ->.
  assert (¬ fs.never_partial (upgrade_GetConfigFile stateDir)
              (configText hubPort) fs
              (<[upgrade_GetConfigFile stateDir := ""]> fs :: rest)) as Hall.
  { intros Hnp. apply Forall_cons in Hnp as [Hfirst _].
    rewrite lookup_insert_eq, Hnone in Hfirst.
    destruct Hfirst as [?|H]; [done|].
    injection H as H. discriminate H. }
  destruct (fs.WriteFileErr os _) as [[e|n e]|]; simpl; [done| |done].
  intros _ Hnp. apply Hall. unfold fs.never_partial in *.
  apply Forall_cons in Hnp as [Hfirst _].
  apply Forall_cons. split; [done|].
  exfalso. rewrite lookup_insert_eq, Hnone in Hfirst.
  destruct Hfirst as [?|H]; [done|].
  injection H as H. discriminate H.
Qed.

(** C8: every operation that persists the configuration to its path must
    write a temporary file and rename it, so that no partial file is ever
    at the path.  [commanders.CreateConfigFile], creating the file for hub
    port 7527 in an empty state directory, writes it in place: the path
    first holds an empty file, then growing prefixes of the record, before
    it holds the record. *)
Theorem CreateConfigFile_shows_partial_file :
  let path := upgrade_GetConfigFile example.stateDir in
  let trace :=
    (CreateConfigFile example.reliable example.quoted example.stateDir 7527
       ∅).2 in
  trace !! 0%nat = Some {[ path := "" ]}
  ∧ trace !! 8%nat = Some {[ path := "{" +:+ dq +:+ "Port" +:+ dq +:+ ":" ]}
  ∧ fs.final ∅ trace = {[ path := configText 7527 ]}
  ∧ ¬ fs.never_partial path (configText 7527) ∅ trace.
Proof.
  split; [reflexivity|]. split; [reflexivity|]. split; [reflexivity|].
  apply CreateConfigFile_not_atomic. intros Hnil.
  apply (f_equal length) in Hnil. vm_compute in Hnil. discriminate Hnil.
Qed.

(** ** The temporary configuration *)

(** C9: the temporary configuration written by [CreateTemporaryConfigFile]
    must load again with the same GPHome and port.  For the GPHome
    /usr/local/greenplum-db and the port 5432 the file holds the path
    without quotes, which is not JSON: [LoadConfig] returns a syntax error
    and leaves the configuration empty, and [revert], which does not look
    at the error, goes on with an empty GPHome and port 0. *)
Theorem temporary_config_does_not_load :
  let path := upgrade_GetConfigFile example.stateDir +:+ ".tmp" in
  let written :=
    fs.final ∅ (CreateTemporaryConfigFile example.reliable example.quoted
                  example.stateDir "/usr/local/greenplum-db" 5432 ∅).2 in
  written !! path
  = Some ("{" +:+ dq +:+ "GPHome" +:+ dq +:+ ": /usr/local/greenplum-db, "
          +:+ dq +:+ "Port" +:+ dq +:+ ": 5432}")
  ∧ commands.LoadConfig example.reliable commands.zero path written
    = (Some (Wrap "reading temporary configuration file: "
                  json.SyntaxError),
       commands.zero)
  ∧ commands.revertSource example.reliable example.quoted example.stateDir
      written
    = inr (Some ("", 0)).
Proof. vm_compute. done. Qed.

(** The same for every GPHome that is an absolute path, whatever the
    port: the slash is not the beginning of a JSON value. *)
Lemma temporary_config_absolute_path_fails rest port :
  commands.Load commands.zero (temporaryConfigText (String "/" rest) port)
  = (Some json.SyntaxError, commands.zero).
Proof.
  unfold commands.Load, json.firstValue, temporaryConfigText.
  cbn. reflexivity.
Qed.

(** Only a GPHome that is itself a JSON string literal loads, and then as
    the string it denotes, without the quotes it was given with. *)
Lemma temporary_config_quoted_gphome :
  commands.Load commands.zero
    (temporaryConfigText (dq +:+ "/usr/local/greenplum-db" +:+ dq) 5432)
  = (None, {| commands.GPHome := "/usr/local/greenplum-db";
              commands.Port := 5432 |}).
Proof. vm_compute. reflexivity. Qed.

(** * More properties *)

(** ** The connections of the hub *)

(** X1: [EnsureConnsAreReady] returns nil exactly when every connection is
    Ready; the empty set is ready. *)
Theorem EnsureConnsAreReady_nil_iff_all_ready states conns :
  EnsureConnsAreReady states conns = None
  ↔ Forall (λ conn, GetState states (idl.Conn conn) = Ready) conns.
Proof.
  split; [|apply EnsureConnsAreReady_ready].
  intros Hnone. apply Forall_forall. intros conn Hin.
  destruct (decide (GetState states (idl.Conn conn) = Ready)) as [|Hne];
    [done|].
  pose proof (notReadyHosts_nonempty _ _ _ Hin Hne) as Hnr.
  by rewrite (EnsureConnsAreReady_not_ready _ _ Hnr) in Hnone.
Qed.

Lemma dialAgents_all dial port hosts conns acc dialed :
  Forall2 (λ h conn, dial (h +:+ ":" +:+ Itoa port) = inr conn) hosts conns →
  dialAgents dial port hosts acc dialed
  = (None, acc ++ zip_with connect hosts conns,
     dialed ++ ((λ h, h +:+ ":" +:+ Itoa port) <$> hosts)).
Proof.
  intros Hall. revert acc dialed.
  induction Hall as [|h conn hosts conns Hh _ IH]; intros acc dialed; simpl.
  - by rewrite !app_nil_r.
  - rewrite Hh, IH. by rewrite <- !app_assoc.
Qed.

Lemma set_agentConns_same s : set_agentConns (agentConns s) s = s.
Proof. by destruct s. Qed.

Lemma zip_with_connect_hosts {P : string → ClientConn → Prop} hosts conns :
  Forall2 P hosts conns →
  idl.Hostname <$> zip_with connect hosts conns = hosts.
Proof.
  induction 1 as [|h conn l k _ _ IH]; [done|]. csimpl. by rewrite IH.
Qed.

(** X2: when every dial succeeds, the first [AgentConns] of a hub dials
    each host of [AgentHosts] once, in that order, returns one connection
    per host and caches them; a later call, with those connections Ready,
    returns the same connections and dials nothing. *)
Theorem AgentConns_dials_each_host_once env s c conns :
  agentConns s = [] →
  Source s = Some c →
  AgentHosts (mapRange env) c ≠ [] →
  Forall2 (λ h conn,
             grpcDialer env (h +:+ ":" +:+ Itoa (AgentPort s)) = inr conn)
          (AgentHosts (mapRange env) c) conns →
  let hosts := AgentHosts (mapRange env) c in
  let cached := zip_with connect hosts conns in
  let s' := set_agentConns cached s in
  idl.Hostname <$> cached = hosts
  ∧ AgentConns env s
    = Returns {| ret_conns := cached; ret_err := None; after := s';
                 dials := (λ h, h +:+ ":" +:+ Itoa (AgentPort s)) <$> hosts |}
  ∧ ∀ env',
      Forall (λ conn, GetState (connStates env') (idl.Conn conn) = Ready)
             cached →
      AgentConns env' s'
      = Returns {| ret_conns := cached; ret_err := None; after := s';
                   dials := [] |}.
Proof.
  intros Hnil Hsrc Hsome Hdials. cbv zeta.
  remember (AgentHosts (mapRange env) c) as hosts eqn:Hhosts.
  split; [|split].
  - by apply (zip_with_connect_hosts _ _ Hdials).
  - unfold AgentConns. rewrite Hnil, Hsrc, <- Hhosts.
    by rewrite (dialAgents_all _ _ _ _ _ _ Hdials).
  - intros env' Hready. unfold AgentConns.
    cbn [agentConns set_agentConns].
    destruct Hdials as [|h conn hosts conns Hh Hdials]; [done|].
    cbn [zip_with] in *.
    by rewrite (EnsureConnsAreReady_ready _ _ Hready).
Qed.

Lemma AgentConns_dials_each_host_once_witness :
  (agentConns example.hub = []
   ∧ Source example.hub = Some example.twoHosts
   ∧ AgentHosts (mapRange example.healthy) example.twoHosts = ["sdw2"; "sdw1"]
   ∧ grpcDialer example.healthy "sdw2:6416" = inr 2%nat
   ∧ grpcDialer example.healthy "sdw1:6416" = inr 1%nat)
  ∧ AgentConns example.healthy example.hub
    = Returns
        {| ret_conns := [example.sdw2; example.sdw1]; ret_err := None;
           after := set_agentConns [example.sdw2; example.sdw1] example.hub;
           dials := ["sdw2:6416"; "sdw1:6416"] |}
  ∧ AgentConns example.healthy
      (set_agentConns [example.sdw2; example.sdw1] example.hub)
    = Returns
        {| ret_conns := [example.sdw2; example.sdw1]; ret_err := None;
           after := set_agentConns [example.sdw2; example.sdw1] example.hub;
           dials := [] |}.
Proof.
  split; [repeat split; reflexivity|].
  destruct (AgentConns_dials_each_host_once example.healthy example.hub
              example.twoHosts [2%nat; 1%nat])
    as (_ & Hfirst & Hnext).
  - reflexivity.
  - reflexivity.
  - vm_compute. discriminate.
  - repeat constructor.
  - split; [exact Hfirst|]. apply Hnext. repeat constructor.
Defined.

(** X3: when the dial of the first host fails, [AgentConns] returns the
    error wrapped as "agent connections: ", has dialled that one target,
    and leaves the hub as it was: nothing is cached, and the next call
    dials again from the first host. *)
Theorem AgentConns_first_dial_failure_caches_nothing env s c host rest e :
  agentConns s = [] →
  Source s = Some c →
  AgentHosts (mapRange env) c = host :: rest →
  grpcDialer env (host +:+ ":" +:+ Itoa (AgentPort s)) = inl e →
  AgentConns env s
  = Returns {| ret_conns := [];
               ret_err := Some (Wrap "agent connections: " e);
               after := s;
               dials := [host +:+ ":" +:+ Itoa (AgentPort s)] |}.
Proof.
  intros Hnil Hsrc Hhosts Hfail. unfold AgentConns.
  rewrite Hnil, Hsrc, Hhosts. simpl. rewrite Hfail.
  by rewrite <- Hnil, set_agentConns_same.
Qed.

Lemma AgentConns_first_dial_failure_caches_nothing_witness :
  (agentConns example.hub = []
   ∧ Source example.hub = Some example.twoHosts
   ∧ AgentHosts (λ m, reverse (keys m)) example.twoHosts = ["sdw2"; "sdw1"]
   ∧ grpcDialer example.world "sdw2:6416" = inl example.deadlineExceeded)
  ∧ AgentConns sample.backwards example.hub
    = Returns {| ret_conns := [];
                 ret_err := Some (Wrap "agent connections: "
                                       example.deadlineExceeded);
                 after := example.hub;
                 dials := ["sdw2:6416"] |}.
Proof.
  split; [repeat split; reflexivity|].
  apply (AgentConns_first_dial_failure_caches_nothing sample.backwards
           example.hub example.twoHosts "sdw2" ["sdw1"]
           example.deadlineExceeded); reflexivity.
Defined.

(** ** Closing connections, stopping and starting *)

Lemma GetState_insert states conn conn' st :
  GetState (<[conn := st]> states) conn'
  = if decide (conn = conn') then st else GetState states conn'.
Proof.
  unfold GetState. destruct (decide (conn = conn')) as [->|Hne].
  - by rewrite lookup_insert_eq.
  - by rewrite lookup_insert_ne.
Qed.

(** One connection is closed when it is not shut down yet, and the close
    then leaves it shut down; on a connection already shut down the wait
    for a change of state never ends. *)
Lemma closeAgentConn_spec states conn :
  closeAgentConn states conn
  = if decide (GetState states (idl.Conn conn) = Shutdown) then Blocks
    else Returns (<[idl.Conn conn := Shutdown]> states).
Proof.
  unfold closeAgentConn.
  destruct (decide (GetState states (idl.Conn conn) = Shutdown)) as [Hs|Hs].
  - by rewrite decide_True.
  - assert (GetState (<[idl.Conn conn := Shutdown]> states) (idl.Conn conn)
            = Shutdown) as ->
      by (rewrite GetState_insert; by rewrite decide_True).
    by rewrite decide_False.
Qed.

(** X4: [closeAgentConns] returns exactly when no connection of the list
    is shut down already and no connection object is in the list twice; it
    then leaves every connection of the list shut down and every other
    connection as it was.  Otherwise it blocks. *)
Theorem closeAgentConns_returns_iff states conns states' :
  closeAgentConns states conns = Returns states'
  ↔ NoDup (idl.Conn <$> conns)
    ∧ Forall (λ conn, GetState states (idl.Conn conn) ≠ Shutdown) conns
    ∧ states'
      = foldl (λ st conn, <[idl.Conn conn := Shutdown]> st) states conns.
Proof.
  revert states. induction conns as [|conn conns IH]; intros states.
  - simpl. split.
    + intros [= <-]. split; [constructor|]. split; [constructor|done].
    + by intros (_ & _ & ->).
  - cbn [closeAgentConns]. rewrite closeAgentConn_spec. csimpl.
    destruct (decide (GetState states (idl.Conn conn) = Shutdown)) as [Hs|Hs].
    + split; [done|]. intros (_ & Hall & _).
      by apply Forall_cons in Hall as [? _].
    + cbn [mbind outcome_bind].
      rewrite IH, NoDup_cons, Forall_cons.
      assert (Forall (λ c, GetState (<[idl.Conn conn:=Shutdown]> states)
                             (idl.Conn c) ≠ Shutdown) conns
              ↔ (idl.Conn conn ∉ (idl.Conn <$> conns))
                ∧ Forall (λ c, GetState states (idl.Conn c) ≠ Shutdown) conns)
        as ->.
      { rewrite !Forall_forall. setoid_rewrite GetState_insert.
        rewrite list_elem_of_fmap. split.
        - intros H. split.
          + intros (c & Hc & Hin). specialize (H c Hin).
            by rewrite decide_True in H.
          + intros c Hin. specialize (H c Hin).
            destruct (decide _); [done|done].
        - intros [Hnin H] c Hin. destruct (decide _) as [Heq|]; [|by apply H].
          exfalso. apply Hnin. by exists c. }
      tauto.
Qed.

Lemma closeAgentConns_returns_iff_witness :
  NoDup (idl.Conn <$> [example.sdw1; example.sdw2])
  ∧ Forall (λ conn, GetState (connStates example.world) (idl.Conn conn)
                    ≠ Shutdown) [example.sdw1; example.sdw2]
  ∧ closeAgentConns (connStates example.world) [example.sdw1; example.sdw2]
    = Returns (<[2%nat := Shutdown]>
                 (<[1%nat := Shutdown]> (connStates example.world))).
Proof.
  assert (NoDup (idl.Conn <$> [example.sdw1; example.sdw2])) as Hnd.
  { simpl. apply NoDup_cons. split; [|apply NoDup_singleton].
    rewrite list_elem_of_singleton. discriminate. }
  assert (Forall (λ conn, GetState (connStates example.world) (idl.Conn conn)
                          ≠ Shutdown) [example.sdw1; example.sdw2]) as Hall.
  { repeat constructor; vm_compute; discriminate. }
  split; [exact Hnd|]. split; [exact Hall|].
  apply (proj2 (closeAgentConns_returns_iff (connStates example.world)
                  [example.sdw1; example.sdw2] _)).
  split; [exact Hnd|]. split; [exact Hall|]. reflexivity.
Defined.

(** X5: once [Stop] has returned, [Start] does not serve: with the
    listener bound, it returns [ErrHubStopped] and leaves the server as it
    is. *)
Theorem Start_after_Stop_is_refused states closeConns s states' s' srv :
  Stop states closeConns s = Returns (states', s') →
  Start_enter None srv s' = (Some ErrHubStopped, s').
Proof.
  intros Hstop. apply Stop_keeps_server in Hstop as [_ Hstopped].
  unfold Start_enter. by rewrite Hstopped.
Qed.

Lemma Start_after_Stop_is_refused_witness :
  Stop ∅ true example.hub = Returns (∅, set_stopped None example.hub)
  ∧ Start_enter None 1%nat (set_stopped None example.hub)
    = (Some ErrHubStopped, set_stopped None example.hub).
Proof.
  assert (Stop ∅ true example.hub
          = Returns (∅, set_stopped None example.hub)) as Hstop
    by reflexivity.
  split; [exact Hstop|].
  exact (Start_after_Stop_is_refused ∅ true example.hub ∅ _ 1%nat Hstop).
Defined.

(** What [Stop(false)] leaves as it was. *)
Lemma Stop_false_unchanged states s states' s' :
  Stop states false s = Returns (states', s') →
  states' = states
  ∧ agentConns s' = agentConns s
  ∧ Source s' = Source s
  ∧ AgentPort s' = AgentPort s
  ∧ server s' = server s
  ∧ stopped s' = None.
Proof.
  unfold Stop. cbn [mbind outcome_bind]. intros Hstop.
  destruct (server s) as [srv|] eqn:Hsrv.
  - destruct (receive_stopped _) as [s1| |] eqn:Hr; try done.
    injection Hstop as <- <-. unfold receive_stopped in Hr.
    destruct (serving s) eqn:Hserving; [unfold Start_signal in Hr|];
      destruct (stopped s) as [[|n]|] eqn:Hch; simpl in Hr;
      rewrite ?Hch in Hr; try done;
      injection Hr as <-; simpl; by rewrite Hsrv.
  - injection Hstop as <- <-. simpl. by rewrite Hsrv.
Qed.

(** X6: [Stop(false)] blocks exactly when a server is installed and the
    channel [stopped] is nil, or is empty with no [Start] serving that
    would send on it.  In every other state it returns, having closed no
    connection and kept the cache and the server, with [stopped] nil. *)
Theorem Stop_false_blocks_iff states s :
  (Stop states false s = Blocks
   ↔ is_Some (server s)
     ∧ (stopped s = None ∨ (stopped s = Some 0%nat ∧ serving s = false)))
  ∧ (Stop states false s ≠ Blocks →
     ∃ s', Stop states false s = Returns (states, s')
           ∧ agentConns s' = agentConns s
           ∧ server s' = server s
           ∧ stopped s' = None).
Proof.
  assert (∀ st', Stop states false s = Returns st' →
            ∃ s', Stop states false s = Returns (states, s')
                  ∧ agentConns s' = agentConns s
                  ∧ server s' = server s
                  ∧ stopped s' = None) as Hret.
  { intros [states' s'] Hstop. rewrite Hstop.
    apply Stop_false_unchanged in Hstop as (-> & Hc & _ & _ & Hsrv & Hst).
    by exists s'. }
  split.
  - unfold Stop, receive_stopped, Start_signal. cbn [mbind outcome_bind].
    destruct (server s) as [srv|]; [|split; [done|by intros [[? ?] _]]].
    destruct (serving s); destruct (stopped s) as [[|n]|] eqn:Hch; simpl;
      rewrite ?Hch; simpl;
      (split;
       [ intros H; first [discriminate H | split; [by eexists | auto]]
       | intros [_ [H|[H H']]];
         first [reflexivity | discriminate H | discriminate H'] ]).
  - intros Hnb. destruct (Stop states false s) as [st'| |] eqn:Hstop.
    + exact (Hret st' eq_refl).
    + done.
    + exfalso. revert Hstop. unfold Stop, receive_stopped, Start_signal.
      cbn [mbind outcome_bind].
      destruct (server s); [|done].
      destruct (serving s); destruct (stopped s) as [[|n]|] eqn:Hch; simpl;
        rewrite ?Hch; done.
Qed.

Lemma Stop_false_blocks_iff_witness :
  let started := (Start_enter None 1%nat example.connectedHub).2 in
  Stop (connStates example.world) false started ≠ Blocks
  ∧ ∃ s', Stop (connStates example.world) false started
          = Returns (connStates example.world, s')
          ∧ agentConns s' = agentConns started
          ∧ server s' = server started
          ∧ stopped s' = None.
Proof.
  assert (Stop (connStates example.world) false
            (Start_enter None 1%nat example.connectedHub).2 ≠ Blocks) as Hnb
    by (vm_compute; discriminate).
  split; [exact Hnb|].
  exact (proj2 (Stop_false_blocks_iff (connStates example.world)
                  (Start_enter None 1%nat example.connectedHub).2) Hnb).
Defined.

(** ** StopServices *)

(** X7: [StopServices], when it returns, returns no error, whatever
    [StopAgents] returned: a dial that failed, connections that were not
    ready, agents that did not stop.  The hub is then stopped, the
    connections as open as before, and the cache as [AgentConns] left
    it. *)
Theorem StopServices_never_reports_failure env s e states' s' dialled :
  StopServices env s = Returns (e, states', s', dialled) →
  e = None
  ∧ stopped s' = None
  ∧ states' = connStates env
  ∧ ∃ r, AgentConns env s = Returns r
         ∧ agentConns s' = agentConns (after r)
         ∧ dialled = dials r.
Proof.
  unfold StopServices, StopAgents. intros Hret.
  destruct (AgentConns env s) as [r| |] eqn:Hconns; try done.
  cbn [mbind outcome_bind] in Hret.
  assert (Stop (connStates env) false (after r)
            ≫= (λ stopping, Returns (None, stopping.1, stopping.2, dials r))
          = Returns (e, states', s', dialled)) as Hstop
    by (by destruct (ret_err r)).
  clear Hret.
  destruct (Stop (connStates env) false (after r)) as [[st s1]| |] eqn:Hs;
    try done.
  cbn [mbind outcome_bind] in Hstop. simpl in Hstop.
  injection Hstop as <- <- <- <-.
  apply Stop_false_unchanged in Hs
    as (-> & Hcache & _ & _ & _ & Hstopped).
  split; [done|]. split; [done|]. split; [done|]. by exists r.
Qed.

Lemma StopServices_never_reports_failure_witness :
  (∃ e, StopAgents example.world example.connectedHub
        = Returns (Some e, example.connectedHub, []))
  ∧ StopServices example.world example.connectedHub
    = Returns (None, connStates example.world,
               set_stopped None example.connectedHub, [])
  ∧ stopped (set_stopped None example.connectedHub) = None.
Proof.
  assert (StopServices example.world example.connectedHub
          = Returns (None, connStates example.world,
                     set_stopped None example.connectedHub, [])) as Hret
    by (vm_compute; reflexivity).
  split; [eexists; vm_compute; reflexivity|]. split; [exact Hret|].
  destruct (StopServices_never_reports_failure _ _ _ _ _ _ Hret)
    as (_ & Hstopped & _).
  exact Hstopped.
Defined.

(** ** RestartAgents *)

Lemma restartAgent_sentHost env port stateDir host h :
  sentHost (restartAgent env port stateDir host) = Some h →
  h = host
  ∧ (∃ e, DialContext env (host +:+ ":" +:+ Itoa port) = inl e)
  ∧ ∃ path, GetGpupgradePath env = inr path.
Proof.
  unfold restartAgent.
  destruct (DialContext env _) as [e|conn].
  - destruct (GetGpupgradePath env) as [e'|path]; [done|].
    destruct (CommandOutput env _ _); [done|]. simpl. intros [= <-].
    eauto.
  - by destruct (ConnClose env conn).
Qed.

(** X8: [RestartAgents] starts an agent only where none answered: every
    host it returns is one of the hosts it was given, and the dial of that
    host had failed.  A host whose agent answered the dial is never in the
    list, in whatever order the goroutines finish. *)
Theorem RestartAgents_restarts_only_unreachable env hostnames port stateDir :
  Env_ok env →
  ∀ h, h ∈ (RestartAgents env hostnames port stateDir).1 →
       h ∈ hostnames
       ∧ ∃ e, DialContext env (h +:+ ":" +:+ Itoa port) = inl e.
Proof.
  intros Hok h Hin.
  destruct (RestartAgents_aggregates env hostnames port stateDir Hok)
    as (Hhosts & _ & _).
  rewrite Hhosts in Hin. apply list_elem_of_omap in Hin as (m & Hm & Hsent).
  apply list_elem_of_fmap in Hm as (host & -> & Hhost).
  apply restartAgent_sentHost in Hsent as (-> & Hdial & _). done.
Qed.

Lemma RestartAgents_restarts_only_unreachable_witness :
  Env_ok example.world
  ∧ "sdw1" ∈ (RestartAgents example.world ["sdw1"; "sdw2"] 6416
                example.stateDir).1
  ∧ "sdw1" ∈ ["sdw1"; "sdw2"]
  ∧ ∃ e, DialContext example.world ("sdw1" +:+ ":" +:+ Itoa 6416) = inl e.
Proof.
  assert ("sdw1" ∈ (RestartAgents example.world ["sdw1"; "sdw2"] 6416
                      example.stateDir).1) as Hin
    by (vm_compute; apply list_elem_of_here).
  split; [exact world_ok|]. split; [exact Hin|].
  exact (RestartAgents_restarts_only_unreachable example.world
           ["sdw1"; "sdw2"] 6416 example.stateDir world_ok "sdw1" Hin).
Defined.

(** ** Decimal numerals, [Itoa] and [ParseUint] *)

(** Evaluates [digit] at a known character. *)
Ltac eval_digit :=
  match goal with
  | |- context [digit ?c] =>
      let v := eval vm_compute in (digit c) in change (digit c) with v
  end.

Lemma parseDigits_string_of_uint acc d :
  parseDigits acc (NilEmpty.string_of_uint d) = Some (uintValue acc d).
Proof.
  revert acc. induction d as [|d IH|d IH|d IH|d IH|d IH|d IH|d IH|d IH|d IH|d IH];
    intros acc; [done|..];
    cbn [NilEmpty.string_of_uint parseDigits uintValue]; eval_digit; cbv iota beta;
    rewrite IH; do 2 f_equal; lia.
Qed.

Lemma uintValue_of_uint_acc acc d :
  uintValue (Z.pos acc) d = Z.pos (Pos.of_uint_acc d acc).
Proof.
  revert acc. induction d as [|d IH|d IH|d IH|d IH|d IH|d IH|d IH|d IH|d IH|d IH];
    intros acc; [done|..]; cbn -[Z.mul Z.add Pos.mul Pos.add];
    rewrite <- IH; f_equal; lia.
Qed.

Lemma uintValue_of_uint d : uintValue 0 d = Z.of_N (Pos.of_uint d).
Proof.
  induction d as [|d IH|d IH|d IH|d IH|d IH|d IH|d IH|d IH|d IH|d IH];
    [done|exact IH|..]; cbn -[Pos.of_uint_acc]; apply uintValue_of_uint_acc.
Qed.

Lemma uintValue_to_uint p : uintValue 0 (Pos.to_uint p) = Z.pos p.
Proof. by rewrite uintValue_of_uint, DecimalPos.Unsigned.of_to. Qed.

Lemma uintValue_lower acc d : 0 ≤ acc → acc ≤ uintValue acc d.
Proof.
  revert acc. induction d as [|d IH|d IH|d IH|d IH|d IH|d IH|d IH|d IH|d IH|d IH];
    intros acc Hacc; cbn -[Z.mul Z.add]; [lia|..];
    (etrans; [|apply IH; lia]); lia.
Qed.

Lemma Itoa_pos p : Itoa (Z.pos p) = NilEmpty.string_of_uint (Pos.to_uint p).
Proof.
  unfold Itoa. simpl. unfold NilZero.string_of_uint.
  pose proof (DecimalPos.Unsigned.to_uint_nonnil p).
  by destruct (Pos.to_uint p).
Qed.

(** The decimal numeral of a natural number. *)
Lemma Itoa_numeral n :
  0 ≤ n →
  ∃ d, Itoa n = NilEmpty.string_of_uint d ∧ d ≠ Decimal.Nil
       ∧ uintValue 0 d = n.
Proof.
  intros Hn. destruct n as [|p|p]; [| |lia].
  - by exists (Decimal.D0 Decimal.Nil).
  - exists (Pos.to_uint p). split; [apply Itoa_pos|]. split.
    + apply DecimalPos.Unsigned.to_uint_nonnil.
    + apply uintValue_to_uint.
Qed.

Lemma string_of_uint_nonempty d :
  d ≠ Decimal.Nil → NilEmpty.string_of_uint d ≠ "".
Proof. by destruct d. Qed.

Lemma ParseUint_Itoa n bitSize :
  0 ≤ n < 2 ^ bitSize → ParseUint (Itoa n) bitSize = Some n.
Proof.
  intros [Hn Hlt]. destruct (Itoa_numeral n Hn) as (d & -> & Hd & Hv).
  unfold ParseUint. rewrite parseDigits_string_of_uint, Hv.
  pose proof (string_of_uint_nonempty d Hd).
  destruct (NilEmpty.string_of_uint d); [done|].
  by rewrite (proj2 (Z.ltb_lt _ _) Hlt).
Qed.

Lemma digit_range c d : digit c = Some d → 0 ≤ d ≤ 9.
Proof.
  unfold digit. destruct (_ && _) eqn:H; [|done]. intros [= <-].
  apply andb_prop in H as [H1 H2].
  apply Nat.leb_le in H1. apply Nat.leb_le in H2. lia.
Qed.

Lemma parseDigits_lower acc s n :
  parseDigits acc s = Some n → 0 ≤ acc → acc ≤ n.
Proof.
  revert acc. induction s as [|c s IH]; intros acc; simpl.
  - intros [= <-]. lia.
  - destruct (digit c) as [d|] eqn:Hd; [|done]. intros Hp Hacc.
    apply digit_range in Hd. apply IH in Hp; lia.
Qed.

Lemma ParseUint_range s bitSize n :
  ParseUint s bitSize = Some n → 0 ≤ n < 2 ^ bitSize.
Proof.
  unfold ParseUint. destruct s as [|c s]; [done|].
  destruct (parseDigits 0 (String c s)) as [m|] eqn:Hp; [|done].
  destruct (m <? 2 ^ bitSize) eqn:Hlt; [|done]. intros [= <-].
  apply Z.ltb_lt in Hlt. apply parseDigits_lower in Hp; lia.
Qed.

(** ** Split *)

Lemma Split_nonempty s sep : Split s sep ≠ [].
Proof.
  destruct s as [|c s]; [done|]. simpl.
  destruct (Ascii.eqb c sep); [done|]. by destruct (Split s sep).
Qed.

Lemma Split_whole_cons c s sep :
  Split (String c s) sep = [String c s] →
  Ascii.eqb c sep = false ∧ Split s sep = [s].
Proof.
  simpl. destruct (Ascii.eqb c sep); [done|].
  pose proof (Split_nonempty s sep).
  destruct (Split s sep) as [|part parts]; [done|].
  by intros [= -> ->].
Qed.

(** A separator after a part that holds none ends that part. *)
Lemma Split_app a b sep :
  Split a sep = [a] → Split (a +:+ String sep b) sep = a :: Split b sep.
Proof.
  induction a as [|c a IH]; intros Ha; simpl.
  - by rewrite Ascii.eqb_refl.
  - apply Split_whole_cons in Ha as [-> Ha]. by rewrite IH.
Qed.

(** Two parts without a separator make one. *)
Lemma Split_whole a b sep :
  Split a sep = [a] → Split b sep = [b] → Split (a +:+ b) sep = [a +:+ b].
Proof.
  intros Ha Hb. induction a as [|c a IH]; [done|].
  apply Split_whole_cons in Ha as [Hc Ha].
  change (String c a +:+ b) with (String c (a +:+ b)). cbn [Split].
  by rewrite Hc, IH.
Qed.

Lemma Split_string_of_uint d sep :
  digit sep = None →
  Split (NilEmpty.string_of_uint d) sep = [NilEmpty.string_of_uint d].
Proof.
  intros Hsep.
  induction d as [|d IH|d IH|d IH|d IH|d IH|d IH|d IH|d IH|d IH|d IH];
    [done|..]; cbn [NilEmpty.string_of_uint Split]; rewrite IH;
    (destruct (Ascii.eqb _ sep) eqn:Heq; [|done]);
    apply Ascii.eqb_eq in Heq; subst sep; discriminate Hsep.
Qed.

Lemma Split_Itoa n sep :
  0 ≤ n → digit sep = None → Split (Itoa n) sep = [Itoa n].
Proof.
  intros Hn Hsep. destruct (Itoa_numeral n Hn) as (d & -> & _).
  by apply Split_string_of_uint.
Qed.

Lemma Itoa_nonempty n : 0 ≤ n → Itoa n ≠ "".
Proof.
  intros Hn. destruct (Itoa_numeral n Hn) as (d & -> & Hd & _).
  by apply string_of_uint_nonempty.
Qed.

(** ** parsePorts *)

Lemma parsePortsElement_ports p ports :
  parsePortsElement p = inr ports →
  ports ≠ [] ∧ Forall (λ port, 0 ≤ port ≤ 65535) ports.
Proof.
  unfold parsePortsElement.
  assert (∀ port, ParseUint p 16 = Some port →
            [port] ≠ [] ∧ Forall (λ port, 0 ≤ port ≤ 65535) [port]) as Hone.
  { intros port Hp%ParseUint_range. split; [done|].
    apply Forall_singleton. lia. }
  destruct (Split p "-") as [|lowText [|highText [|? ?]]];
    try (destruct (ParseUint p 16) as [port|] eqn:Hp; [|done];
         intros [= <-]; by apply Hone).
  destruct (ParseUint lowText 16) as [low|] eqn:Hlow; [|done].
  destruct (ParseUint highText 16) as [high|] eqn:Hhigh; [|done].
  destruct (high <? low) eqn:Hlt; [done|]. intros [= <-].
  apply Z.ltb_ge in Hlt. apply ParseUint_range in Hlow, Hhigh. split.
  - intros Hnil. apply (f_equal length) in Hnil.
    rewrite length_seqZ in Hnil. simpl in Hnil. lia.
  - apply Forall_forall. intros port Hin%elem_of_seqZ. lia.
Qed.

Lemma parsePortsLoop_ports elements acc ports :
  parsePortsLoop elements acc = inr ports →
  Forall (λ port, 0 ≤ port ≤ 65535) acc →
  Forall (λ port, 0 ≤ port ≤ 65535) ports
  ∧ (length acc + length elements ≤ length ports)%nat.
Proof.
  revert acc. induction elements as [|p rest IH]; intros acc; simpl.
  - intros [= <-] Hacc. split; [done|lia].
  - destruct (parsePortsElement p) as [e|more] eqn:Hp; [done|].
    apply parsePortsElement_ports in Hp as [Hne Hmore]. intros Hloop Hacc.
    apply IH in Hloop as [Hports Hlen]; [|by apply Forall_app].
    split; [done|]. rewrite length_app in Hlen.
    destruct more; [done|]. simpl in Hlen. lia.
Qed.

(** X9: every port that [parsePorts] returns is a 16-bit port number,
    whatever the text; it returns at least one port for each element of
    the list, ranges included, so the empty slice is returned for the empty
    text only.  Anything else is an error. *)
Theorem parsePorts_returns_port_numbers val ports :
  parsePorts val = inr ports →
  Forall (λ port, 0 ≤ port ≤ 65535) ports
  ∧ (val ≠ "" → (length (Split val ",") ≤ length ports)%nat)
  ∧ (ports = [] ↔ val = "").
Proof.
  unfold parsePorts. destruct val as [|c val].
  { by intros [= <-]. }
  intros Hloop. apply parsePortsLoop_ports in Hloop as [Hports Hlen]; [|done].
  change (length (Split (String c val) ",") ≤ length ports)%nat in Hlen.
  split; [done|]. split; [done|]. split; [|done].
  intros ->. pose proof (Split_nonempty (String c val) ",") as Hne.
  destruct (Split (String c val) ","); [done|].
  cbn [length] in Hlen. lia.
Qed.

Lemma parsePorts_returns_port_numbers_witness :
  parsePorts "8000-8002,9000" = inr [8000; 8001; 8002; 9000]
  ∧ Forall (λ port, 0 ≤ port ≤ 65535) [8000; 8001; 8002; 9000]
  ∧ ("8000-8002,9000" ≠ ""
     → (length (Split "8000-8002,9000" ",")
        ≤ length [8000; 8001; 8002; 9000]%Z)%nat)
  ∧ ([8000; 8001; 8002; 9000] = [] ↔ "8000-8002,9000" = "").
Proof.
  split; [reflexivity|].
  apply (parsePorts_returns_port_numbers "8000-8002,9000"). reflexivity.
Defined.

Lemma parsePortsElement_Itoa port :
  0 ≤ port ≤ 65535 → parsePortsElement (Itoa port) = inr [port].
Proof.
  intros Hport. unfold parsePortsElement.
  rewrite Split_Itoa by (lia || done).
  rewrite ParseUint_Itoa; [done|]. change (2 ^ 16) with 65536. lia.
Qed.

Lemma parsePortsElement_range low high :
  0 ≤ low ≤ 65535 → 0 ≤ high ≤ 65535 →
  parsePortsElement (Itoa low +:+ "-" +:+ Itoa high)
  = if high <? low
    then inl (New ("invalid port range " +:+ Itoa low +:+ "-" +:+ Itoa high))
    else inr (seqZ low (high - low + 1)).
Proof.
  intros Hlow Hhigh. unfold parsePortsElement.
  change ("-" +:+ Itoa high) with (String "-" (Itoa high)) at 1.
  rewrite Split_app by (apply Split_Itoa; [lia|done]).
  rewrite Split_Itoa by (lia || done).
  rewrite !ParseUint_Itoa by (change (2 ^ 16) with 65536; lia).
  done.
Qed.

(** X10: a range "low-high" of two port numbers stands for the ports from
    low to high, both included, in ascending order (one port when they are
    equal); a range whose low end is above its high end is refused as an
    invalid port range, not read as empty or backwards. *)
Theorem parsePorts_range low high :
  0 ≤ low ≤ 65535 → 0 ≤ high ≤ 65535 →
  parsePorts (Itoa low +:+ "-" +:+ Itoa high)
  = if high <? low
    then inl (New ("invalid port range " +:+ Itoa low +:+ "-" +:+ Itoa high))
    else inr (seqZ low (high - low + 1)).
Proof.
  intros Hlow Hhigh.
  pose proof (parsePortsElement_range low high Hlow Hhigh) as He.
  assert (Split (Itoa low +:+ "-" +:+ Itoa high) ","
          = [Itoa low +:+ "-" +:+ Itoa high]) as Hsplit.
  { apply Split_whole; [apply Split_Itoa; [lia|done]|].
    change ("-" +:+ Itoa high) with (String "-" (Itoa high)).
    cbn [Split]. change (Ascii.eqb "-" ",") with false. cbv iota.
    by rewrite Split_Itoa by (lia || done). }
  unfold parsePorts. rewrite Hsplit.
  pose proof (Itoa_nonempty low) as Hne.
  destruct (Itoa low) as [|c rest]; [by destruct Hne; [lia|]|].
  cbn [append] in *. cbn [parsePortsLoop]. rewrite He.
  by destruct (high <? low).
Qed.

Lemma parsePorts_range_witness :
  0 ≤ 6000 ≤ 65535 ∧ 0 ≤ 6003 ≤ 65535
  ∧ parsePorts "6000-6003" = inr [6000; 6001; 6002; 6003]
  ∧ parsePorts "6003-6000" = inl (New "invalid port range 6003-6000").
Proof.
  split; [lia|]. split; [lia|]. split.
  - apply (parsePorts_range 6000 6003); lia.
  - apply (parsePorts_range 6003 6000); lia.
Defined.

Lemma parsePortsLoop_Join port ports acc :
  Forall (λ port, 0 ≤ port ≤ 65535) (port :: ports) →
  parsePortsLoop (Split (Join (Itoa <$> port :: ports) ",") ",") acc
  = inr (acc ++ port :: ports).
Proof.
  revert port acc. induction ports as [|next ports IH]; intros port acc Hall;
    apply Forall_cons in Hall as [Hport Hall].
  - cbn [fmap list_fmap Join]. rewrite Split_Itoa by (lia || done).
    cbn [parsePortsLoop]. by rewrite parsePortsElement_Itoa.
  - change (Join (Itoa <$> port :: next :: ports) ",")
      with (Itoa port +:+ String "," (Join (Itoa <$> next :: ports) ",")).
    rewrite Split_app by (apply Split_Itoa; [lia|done]).
    cbn [parsePortsLoop]. rewrite parsePortsElement_Itoa by done.
    rewrite IH by done. by rewrite <- app_assoc.
Qed.

(** X11: [parsePorts] reads back a list of ports written in decimal and
    joined with commas: the same ports, in the same order, duplicates
    kept. *)
Theorem parsePorts_Join_Itoa ports :
  Forall (λ port, 0 ≤ port ≤ 65535) ports →
  parsePorts (Join (Itoa <$> ports) ",") = inr ports.
Proof.
  intros Hall. destruct ports as [|port ports]; [done|].
  pose proof (parsePortsLoop_Join port ports [] Hall) as Hloop.
  unfold parsePorts.
  destruct (Join (Itoa <$> port :: ports) ",") as [|c rest] eqn:Hjoin;
    [|exact Hloop].
  exfalso. apply Forall_cons in Hall as [Hport _].
  apply (Itoa_nonempty port); [lia|].
  destruct ports; cbn [fmap list_fmap Join] in Hjoin; [done|].
  by destruct (Itoa port).
Qed.

Lemma parsePorts_Join_Itoa_witness :
  Forall (λ port, 0 ≤ port ≤ 65535) [7527; 0; 65535; 7527]
  ∧ parsePorts "7527,0,65535,7527" = inr [7527; 0; 65535; 7527].
Proof.
  assert (Forall (λ port, 0 ≤ port ≤ 65535) [7527; 0; 65535; 7527]) as Hall
    by (repeat constructor; lia).
  split; [exact Hall|].
  exact (parsePorts_Join_Itoa [7527; 0; 65535; 7527] Hall).
Defined.

(** ** parseMode *)

Lemma Mode_value_String name mode :
  Mode_value name = Some mode ↔ Mode_String mode = name.
Proof.
  unfold Mode_value. split.
  - destruct (String.eqb name "unknown_mode") eqn:H1;
      [apply String.eqb_eq in H1; by intros [= <-]|].
    destruct (String.eqb name "copy") eqn:H2;
      [apply String.eqb_eq in H2; by intros [= <-]|].
    destruct (String.eqb name "link") eqn:H3;
      [apply String.eqb_eq in H3; by intros [= <-]|done].
  - intros <-. by destruct mode.
Qed.

(** X12: [parseMode] accepts a text exactly when, trimmed of white space
    and in lower case, it is the name of a mode, and returns that mode;
    "unknown_mode" is such a name, accepted without error although the
    message for a refused text does not offer it.  A refused text gives
    [unknown_mode] and an error.  (For a text of ASCII characters, on
    which the model of [strings.TrimSpace] and [strings.ToLower] is
    exact.) *)
Theorem parseMode_accepts_mode_names quote visited input :
  isASCII input = true →
  let name := ToLower (TrimSpace input) in
  (∀ mode, parseMode quote visited input = (mode, None)
           ↔ Mode_String mode = name)
  ∧ (name = "unknown_mode"
     → parseMode quote visited input = (config.unknown_mode, None))
  ∧ ((parseMode quote visited input).2 ≠ None
     → (parseMode quote visited input).1 = config.unknown_mode
       ∧ ∀ mode, Mode_String mode ≠ name).
Proof.
  intros _ name. unfold parseMode. fold name.
  destruct (Mode_value name) as [found|] eqn:Hv.
  - apply Mode_value_String in Hv. split; [|split].
    + intros mode. split; [by intros [= <-]|].
      intros Hm. f_equal. rewrite <- Hv in Hm. by destruct mode, found.
    + intros Hn. f_equal. rewrite Hn in Hv. by destruct found.
    + by intros [].
  - split; [|split].
    + intros mode. split; [done|]. intros Hm%Mode_value_String. congruence.
    + intros Hn. rewrite Hn in Hv. done.
    + intros _. split; [done|]. intros mode Hm%Mode_value_String. congruence.
Qed.

Lemma parseMode_accepts_mode_names_witness :
  let input := String (ascii_of_nat 9) " LiNK " in
  isASCII input = true
  ∧ (∀ mode, parseMode (λ s, dq +:+ s +:+ dq) [config.unknown_mode; config.copy; config.link] input = (mode, None)
             ↔ Mode_String mode = "link")
  ∧ ("link" = "unknown_mode"
     → parseMode (λ s, dq +:+ s +:+ dq) [config.unknown_mode; config.copy; config.link] input = (config.unknown_mode, None))
  ∧ ((parseMode (λ s, dq +:+ s +:+ dq) [config.unknown_mode; config.copy; config.link] input).2 ≠ None
     → (parseMode (λ s, dq +:+ s +:+ dq) [config.unknown_mode; config.copy; config.link] input).1 = config.unknown_mode
       ∧ ∀ mode, Mode_String mode ≠ "link").
Proof.
  split; [reflexivity|].
  exact (parseMode_accepts_mode_names (λ s, dq +:+ s +:+ dq) [config.unknown_mode; config.copy; config.link]
           (String (ascii_of_nat 9) " LiNK ") eq_refl).
Defined.

(** ** StartHub *)

(** X13: [StartHub] executes "gpupgrade hub --daemonize" exactly when the
    count of hub processes ended with exit status 1 (no hub found); it
    returns nil exactly when it then executed the command and the command
    succeeded, and [step.Skip] exactly when the count succeeded (a hub is
    running).  A count that failed in any other way stops it before the
    command. *)
Theorem StartHub_starts_only_a_missing_hub quote cmdString count start :
  let result := StartHub quote cmdString count start in
  (result.2 = true ↔ ∃ output, count = ExitError 1 output)
  ∧ (result.1 = None
     ↔ (∃ output, count = ExitError 1 output)
       ∧ ∃ output, start = Succeeded output)
  ∧ (result.1 = Some step.Skip ↔ ∃ output, count = Succeeded output).
Proof.
  unfold StartHub, IsHubRunning.
  destruct count as [output|code output|e]; simpl.
  - split; [|split]; split; try done; try (by intros [? ?]); try by eexists.
    by intros [[? ?] _].
  - destruct (code =? 1) eqn:Hc.
    + apply Z.eqb_eq in Hc as ->.
      destruct start as [out|c out|e]; simpl;
        (split; [|split]; split; try done; try (by intros [? ?]);
         try (by eexists); try (by intros [_ [? ?]]);
         try (split; by eexists)).
    + apply Z.eqb_neq in Hc.
      split; [|split]; split; try done; try (by intros [? ?]).
      * intros [? [= ? ?]]. done.
      * intros [[? [= ? ?]] _]. done.
  - split; [|split]; split; try done; try (by intros [? ?]).
    by intros [[? ?] _].
Qed.

(** ** The prompt before generating migration scripts *)





Lemma ask_skips w outputDir modTime invalid rest :
  Forall (λ line, ToLower (TrimSpace line) ∉ ["a"; "c"; "q"]) invalid →
  prompt.ask w outputDir modTime (invalid ++ rest)
  = prompt.ask w outputDir modTime rest.
Proof.
  induction 1 as [|line invalid Hline _ IH]; [done|].
  simpl. unfold prompt.choose.
  destruct (String.eqb _ "a") eqn:Ha;
    [apply String.eqb_eq in Ha; destruct Hline; rewrite Ha; set_solver|].
  destruct (String.eqb _ "c") eqn:Hc;
    [apply String.eqb_eq in Hc; destruct Hline; rewrite Hc; set_solver|].
  destruct (String.eqb _ "q") eqn:Hq;
    [apply String.eqb_eq in Hq; destruct Hline; rewrite Hq; set_solver|].
  exact IH.
Qed.

(** X15: when there is a "current" directory to ask about, the
    interactive prompt asks again after every answer that is not a, c or
    q (letter case and surrounding white space apart): the function does
    and returns what it does on the lines after them, and when the input
    ends before a valid answer it returns the reader's error, [io.EOF],
    having changed nothing.  (Lines of ASCII characters, on which the
    model of [strings.TrimSpace] and [strings.ToLower] is exact.) *)
Theorem prompt_asks_again_after_invalid_answer w invalid rest outputDir
    entries modTime :
  prompt.ReadDirFS w = inr entries →
  prompt.findCurrent entries None = inr (Some modTime) →
  Forall (λ line, isASCII line = true
                  ∧ ToLower (TrimSpace line) ∉ ["a"; "c"; "q"]) invalid →
  prompt.ArchiveDataMigrationScriptsPrompt w false (invalid ++ rest)
    outputDir
  = prompt.ArchiveDataMigrationScriptsPrompt w false rest outputDir
  ∧ prompt.ArchiveDataMigrationScriptsPrompt w false invalid outputDir
    = {| prompt.err := Some prompt.EOF; prompt.ops := [];
         prompt.unread := [] |}.
Proof.
  intros Hread Hfind Hinvalid.
  assert (Forall (λ line, ToLower (TrimSpace line) ∉ ["a"; "c"; "q"]) invalid)
    as Hskip by (eapply Forall_impl; [exact Hinvalid|]; by intros ? [_ ?]).
  unfold prompt.ArchiveDataMigrationScriptsPrompt. rewrite Hread, Hfind.
  split; [by apply ask_skips|].
  rewrite <- (app_nil_r invalid). by rewrite ask_skips.
Qed.

Lemma prompt_asks_again_after_invalid_answer_witness :
  let invalid := ["yes" +:+ sample.newline; sample.newline;
                  " archive " +:+ sample.newline] in
  let rest := ["Q" +:+ sample.newline; "a" +:+ sample.newline] in
  prompt.ArchiveDataMigrationScriptsPrompt sample.scripts false
    (invalid ++ rest) "/home/gpadmin/gpAdminLogs/scripts"
  = {| prompt.err := Some step.Quit; prompt.ops := [];
       prompt.unread := ["a" +:+ sample.newline] |}
  ∧ prompt.ArchiveDataMigrationScriptsPrompt sample.scripts false invalid
      "/home/gpadmin/gpAdminLogs/scripts"
    = {| prompt.err := Some prompt.EOF; prompt.ops := [];
         prompt.unread := [] |}.
Proof.
  assert (Forall (λ line, isASCII line = true
                          ∧ ToLower (TrimSpace line) ∉ ["a"; "c"; "q"])
            ["yes" +:+ sample.newline; sample.newline;
             " archive " +:+ sample.newline]) as Hinvalid.
  { repeat constructor; vm_compute; intros H;
      repeat (apply elem_of_cons in H as [H|H]; [discriminate H|]);
      by apply elem_of_nil in H. }
  destruct (prompt_asks_again_after_invalid_answer sample.scripts
              ["yes" +:+ sample.newline; sample.newline;
               " archive " +:+ sample.newline]
              ["Q" +:+ sample.newline; "a" +:+ sample.newline]
              "/home/gpadmin/gpAdminLogs/scripts" _ "20230512T0930"
              eq_refl eq_refl Hinvalid) as [Hsame Heof].
  split; [|exact Heof]. cbv zeta. rewrite Hsame. reflexivity.
Defined.

(** X16: without a terminal ([nonInteractive]) the function does what it
    does for the answer "a", in any letter case and between any white
    space: the same changes and the same error; and it reads nothing from
    the reader. *)
Theorem prompt_nonInteractive_is_answer_a w reader rest outputDir answer :
  isASCII answer = true →
  ToLower (TrimSpace answer) = "a" →
  let unattended :=
    prompt.ArchiveDataMigrationScriptsPrompt w true reader outputDir in
  let answered :=
    prompt.ArchiveDataMigrationScriptsPrompt w false (answer :: rest)
      outputDir in
  prompt.err unattended = prompt.err answered
  ∧ prompt.ops unattended = prompt.ops answered
  ∧ prompt.unread unattended = reader.
Proof.
  intros _ Hanswer. unfold prompt.ArchiveDataMigrationScriptsPrompt.
  destruct (prompt.ReadDirFS w) as [e|entries]; [done|].
  destruct (prompt.findCurrent entries None) as [e|[modTime|]]; [done| |done].
  simpl. rewrite Hanswer. simpl.
  by destruct (prompt.archive w outputDir modTime).
Qed.

Lemma prompt_nonInteractive_is_answer_a_witness :
  let answer := "  A " +:+ sample.newline in
  let unattended :=
    prompt.ArchiveDataMigrationScriptsPrompt sample.scripts true
      ["q" +:+ sample.newline] "/home/gpadmin/gpAdminLogs/scripts" in
  let answered :=
    prompt.ArchiveDataMigrationScriptsPrompt sample.scripts false [answer]
      "/home/gpadmin/gpAdminLogs/scripts" in
  isASCII answer = true
  ∧ ToLower (TrimSpace answer) = "a"
  ∧ prompt.err unattended = prompt.err answered
  ∧ prompt.ops unattended = prompt.ops answered
  ∧ prompt.unread unattended = ["q" +:+ sample.newline].
Proof.
  split; [reflexivity|]. split; [reflexivity|].
  exact (prompt_nonInteractive_is_answer_a sample.scripts
           ["q" +:+ sample.newline] [] "/home/gpadmin/gpAdminLogs/scripts"
           ("  A " +:+ sample.newline) eq_refl eq_refl).
Defined.

(** ** Reading back the temporary configuration *)

Lemma append_String c (a b : string) : String c a +:+ b = String c (a +:+ b).
Proof. reflexivity. Qed.

Lemma append_Empty (b : string) : "" +:+ b = b.
Proof. reflexivity. Qed.

Lemma append_assoc_string (a b c : string) : (a +:+ b) +:+ c = a +:+ (b +:+ c).
Proof.
  induction a as [|x a IH]; [done|]. rewrite !append_String. by rewrite IH.
Qed.

Lemma scanString_plain s rest :
  plain s = true →
  json.scanString (s +:+ String dquote rest) = Some (s, rest).
Proof.
  induction s as [|c s IH]; [done|]. cbn [plain]. intros Hp.
  apply andb_prop in Hp as [Hp Hs]. apply andb_prop in Hp as [Hp _].
  apply andb_prop in Hp as [Hp H32].
  apply andb_prop in Hp as [H34 H92].
  apply negb_true_iff in H34, H92, H32.
  rewrite append_String. cbn [json.scanString]. rewrite H34, H92, H32. by rewrite IH.
Qed.

Lemma scanDigits_string_of_uint acc d c rest :
  json.isDigit c = false →
  json.scanDigits acc (NilEmpty.string_of_uint d +:+ String c rest)
  = (uintValue acc d, String c rest).
Proof.
  intros Hc. revert acc.
  induction d as [|d IH|d IH|d IH|d IH|d IH|d IH|d IH|d IH|d IH|d IH];
    intros acc;
    [rewrite append_Empty; simpl; by rewrite Hc|..];
    cbn [NilEmpty.string_of_uint]; rewrite append_String;
    match goal with
    | |- context [String ?x (NilEmpty.string_of_uint d +:+ ?r)] =>
        let v := eval vm_compute in (json.digitValue x) in
        change (json.scanDigits acc (String x (NilEmpty.string_of_uint d +:+ r)))
          with (json.scanDigits (10 * acc + v)
                  (NilEmpty.string_of_uint d +:+ r))
    end;
    rewrite IH; cbn [uintValue]; do 2 f_equal; lia.
Qed.

Lemma nzhead_not_D0 d u : Decimal.nzhead d ≠ Decimal.D0 u.
Proof. induction d; simpl; try done. Qed.

(** The numeral of a positive number has no leading zero. *)
Lemma to_uint_no_leading_zero p u : Pos.to_uint p ≠ Decimal.D0 u.
Proof.
  intros Hp.
  pose proof (DecimalPos.Unsigned.to_of (Pos.to_uint p)) as Hto.
  rewrite DecimalPos.Unsigned.of_to in Hto. simpl in Hto.
  rewrite Hp in Hto. unfold Decimal.unorm in Hto. simpl in Hto.
  destruct (Decimal.nzhead u) eqn:Hnz; try discriminate Hto.
  - injection Hto as ->. by apply (DecimalPos.Unsigned.to_uint_nonzero p).
  - by apply nzhead_not_D0 in Hnz.
Qed.

Lemma scanNatural_to_uint p c rest :
  json.isDigit c = false → json.startsFraction (String c rest) = false →
  json.scanNatural (NilEmpty.string_of_uint (Pos.to_uint p) +:+ String c rest)
  = Some (Z.pos p, String c rest).
Proof.
  intros Hc Hf. pose proof (uintValue_to_uint p) as Hv.
  pose proof (to_uint_no_leading_zero p) as Hz.
  pose proof (DecimalPos.Unsigned.to_uint_nonnil p) as Hn.
  pose proof (scanDigits_string_of_uint 0 (Pos.to_uint p) c rest Hc) as Hs.
  destruct (Pos.to_uint p) as [|d|d|d|d|d|d|d|d|d|d];
    [done|by destruct (Hz d)|..];
    cbn [NilEmpty.string_of_uint] in Hs |- *;
    rewrite append_String in Hs |- *;
    unfold json.scanNatural;
    match goal with
    | |- context [json.scanDigits 0 ?s] =>
        change (json.scanDigits 0 s) with (json.scanDigits 0 s) in Hs;
        rewrite Hs
    end;
    cbn [json.isDigit negb]; rewrite Hf, Hv; reflexivity.
Qed.

Lemma Itoa_neg p :
  Itoa (Z.neg p) = String "-" (NilEmpty.string_of_uint (Pos.to_uint p)).
Proof.
  unfold Itoa. simpl. unfold NilZero.string_of_uint.
  pose proof (DecimalPos.Unsigned.to_uint_nonnil p).
  by destruct (Pos.to_uint p).
Qed.

(** A number written by [Itoa], after a space and before the closing
    brace, is scanned as that number. *)
Lemma scanValue_Itoa fuel port :
  json.scanValue (S fuel) (String " " (Itoa port +:+ "}"))
  = Some (json.Number port, "}").
Proof.
  destruct port as [|p|p].
  - reflexivity.
  - rewrite Itoa_pos.
    pose proof (scanNatural_to_uint p "}" "" eq_refl eq_refl) as Hs.
    pose proof (to_uint_no_leading_zero p) as Hz.
    pose proof (DecimalPos.Unsigned.to_uint_nonnil p) as Hn.
    destruct (Pos.to_uint p) as [|d|d|d|d|d|d|d|d|d|d];
      [done|by destruct (Hz d)|..];
      cbn [NilEmpty.string_of_uint] in Hs |- *;
      rewrite append_String in Hs |- *;
      lazy -[json.scanNatural String.append NilEmpty.string_of_uint]; by rewrite Hs.
  - rewrite Itoa_neg, append_String.
    pose proof (scanNatural_to_uint p "}" "" eq_refl eq_refl) as Hs.
    lazy -[json.scanNatural String.append NilEmpty.string_of_uint Z.opp Pos.to_uint].
    by rewrite Hs.
Qed.

(** The scanners, one step each. *)
Lemma scanValue_space fuel s :
  json.scanValue fuel (String " " s) = json.scanValue fuel s.
Proof. by destruct fuel. Qed.

Lemma scanMembers_space fuel s :
  json.scanMembers fuel (String " " s) = json.scanMembers fuel s.
Proof. by destruct fuel. Qed.

Lemma scanValue_string fuel s rest :
  plain s = true →
  json.scanValue (S fuel) (String dquote (s +:+ String dquote rest))
  = Some (json.Str s, rest).
Proof.
  intros Hs.
  change (json.scanValue (S fuel) (String dquote (s +:+ String dquote rest)))
    with (match json.scanString (s +:+ String dquote rest) with
          | Some (str, after) => Some (json.Str str, after)
          | None => None
          end).
  by rewrite scanString_plain.
Qed.

Lemma scanValue_object fuel rest :
  json.scanValue (S fuel) (String "{" (String dquote rest))
  = match json.scanMembers fuel (String dquote rest) with
    | Some (fields, after) => Some (json.Object fields, after)
    | None => None
    end.
Proof. reflexivity. Qed.

Lemma scanMembers_member fuel key value :
  plain key = true →
  json.scanMembers (S fuel)
    (String dquote (key +:+ String dquote (String ":" value)))
  = match json.scanValue fuel value with
    | Some (v, after) =>
        match json.skipSpace after with
        | String d rest =>
            if (nat_of_ascii d =? 125)%nat then Some ([(key, v)], rest)
            else if (nat_of_ascii d =? 44)%nat then
              match json.scanMembers fuel rest with
              | Some (fields, final) => Some ((key, v) :: fields, final)
              | None => None
              end
            else None
        | EmptyString => None
        end
    | None => None
    end.
Proof.
  intros Hk.
  change (json.scanMembers (S fuel)
            (String dquote (key +:+ String dquote (String ":" value))))
    with (match json.scanString (key +:+ String dquote (String ":" value)) with
          | Some (key', after0) =>
              match json.skipSpace after0 with
              | String colon after' =>
                  if (nat_of_ascii colon =? 58)%nat then
                    match json.scanValue fuel after' with
                    | Some (v, after) =>
                        match json.skipSpace after with
                        | String d rest =>
                            if (nat_of_ascii d =? 125)%nat
                            then Some ([(key', v)], rest)
                            else if (nat_of_ascii d =? 44)%nat then
                              match json.scanMembers fuel rest with
                              | Some (fields, final) =>
                                  Some ((key', v) :: fields, final)
                              | None => None
                              end
                            else None
                        | EmptyString => None
                        end
                    | None => None
                    end
                  else None
              | EmptyString => None
              end
          | None => None
          end).
  by rewrite scanString_plain.
Qed.

(** A member followed by a comma and more members. *)
Lemma scanMembers_more fuel key value v rest fields final :
  plain key = true →
  json.scanValue fuel value = Some (v, String "," rest) →
  json.scanMembers fuel rest = Some (fields, final) →
  json.scanMembers (S fuel)
    (String dquote (key +:+ String dquote (String ":" value)))
  = Some ((key, v) :: fields, final).
Proof.
  intros Hk Hv Hm. rewrite scanMembers_member, Hv by done.
  transitivity (match json.scanMembers fuel rest with
                | Some (fields, final) => Some ((key, v) :: fields, final)
                | None => None
                end); [reflexivity|by rewrite Hm].
Qed.

(** The last member, followed by the closing brace. *)
Lemma scanMembers_last fuel key value v rest :
  plain key = true →
  json.scanValue fuel value = Some (v, String "}" rest) →
  json.scanMembers (S fuel)
    (String dquote (key +:+ String dquote (String ":" value)))
  = Some ([(key, v)], rest).
Proof. intros Hk Hv. by rewrite scanMembers_member, Hv by done. Qed.

(** The text written for a GPHome given as the string literal of a plain
    string. *)
Lemma temporaryConfigText_quoted s port :
  temporaryConfigText (dq +:+ s +:+ dq) port
  = String "{" (String dquote ("GPHome" +:+ String dquote (String ":"
      (String " " (String dquote (s +:+ String dquote (String ","
        (String " " (String dquote ("Port" +:+ String dquote (String ":"
          (String " " (Itoa port +:+ "}"))))))))))))).
Proof.
  unfold temporaryConfigText, dq.
  rewrite !append_String, !append_Empty, !append_assoc_string. reflexivity.
Qed.

Lemma scanValue_temporaryConfigText fuel s port :
  plain s = true →
  json.scanValue (S (S (S (S fuel))))
    (temporaryConfigText (dq +:+ s +:+ dq) port)
  = Some (json.Object [("GPHome", json.Str s); ("Port", json.Number port)],
          "").
Proof.
  intros Hs. rewrite temporaryConfigText_quoted, scanValue_object.
  erewrite scanMembers_more; [reflexivity|reflexivity|..].
  - rewrite scanValue_space. by apply scanValue_string.
  - rewrite scanMembers_space. apply scanMembers_last; [reflexivity|].
    apply scanValue_Itoa.
Qed.

(** The decoder reads the text back as the object of the GPHome and the
    port. *)
Lemma firstValue_temporaryConfigText s port :
  plain s = true →
  json.firstValue (temporaryConfigText (dq +:+ s +:+ dq) port)
  = Some (json.Object [("GPHome", json.Str s);
                       ("Port", json.Number port)]).
Proof.
  intros Hs. unfold json.firstValue.
  assert (∃ fuel, String.length (temporaryConfigText (dq +:+ s +:+ dq) port)
                  = S (S (S fuel))) as [fuel ->].
  { rewrite temporaryConfigText_quoted. cbn [String.length].
    destruct ("GPHome" +:+ _) eqn:Hg; [discriminate Hg|].
    cbn [String.length]. by eexists. }
  by rewrite scanValue_temporaryConfigText.
Qed.

Lemma Load_temporaryConfigText s port :
  plain s = true → - 2147483648 ≤ port ≤ 2147483647 →
  commands.Load commands.zero (temporaryConfigText (dq +:+ s +:+ dq) port)
  = (None, {| commands.GPHome := s; commands.Port := port |}).
Proof.
  intros Hs [Hlow Hhigh]. unfold commands.Load.
  rewrite firstValue_temporaryConfigText by done.
  cbn [foldl]. unfold commands.decodeField at 2.
  change (json.names "GPHome" "GPHome") with true. cbv iota.
  unfold commands.decodeField, commands.zero.
  change (json.names "Port" "GPHome") with false.
  change (json.names "Port" "Port") with true. cbv iota.
  apply Z.leb_le in Hlow, Hhigh. by rewrite Hlow, Hhigh.
Qed.

(** What [os.WriteFile] leaves when nothing fails. *)
Lemma WriteFile_completes os name data (fs : fs.FS) :
  fs.WriteFileErr os name = None →
  fs.WriteFile os name data fs = (None, fs.writes name data fs).
Proof. intros H. unfold fs.WriteFile. by rewrite H. Qed.

(** [upgrade.PathExist] finds a file that is there, when the look does not
    fail. *)
Lemma PathExist_true os path data (fs : fs.FS) :
  fs.StatErr os path = None → fs !! path = Some data →
  fs.PathExist os path fs = inr true.
Proof.
  intros Hstat Hfile. unfold fs.PathExist. rewrite Hstat. f_equal.
  apply bool_decide_eq_true. by eexists.
Qed.

(** X17: when the look for the temporary file finds none and the write does
    not fail, [CreateTemporaryConfigFile] returns nil, and a GPHome passed
    to it as a JSON string literal (a string of ASCII characters without
    quote, backslash or control character, between double quotes) is
    written so that it loads again: if the file can then be looked for and
    opened, [LoadConfig] returns no error and the configuration holds the
    string, without the quotes, and the port, and [revert] takes these two
    from the file.  The port is any 32-bit integer, negative ones
    included. *)
Theorem temporary_config_round_trip os quote stateDir s port (fs : fs.FS) :
  plain s = true →
  - 2147483648 ≤ port ≤ 2147483647 →
  fs.PathExist os (upgrade_GetConfigFile stateDir +:+ ".tmp") fs
  = inr false →
  fs.WriteFileErr os (upgrade_GetConfigFile stateDir +:+ ".tmp") = None →
  let path := upgrade_GetConfigFile stateDir +:+ ".tmp" in
  let created :=
    CreateTemporaryConfigFile os quote stateDir (dq +:+ s +:+ dq) port fs in
  let written := fs.final fs created.2 in
  created.1 = None
  ∧ written = <[path := temporaryConfigText (dq +:+ s +:+ dq) port]> fs
  ∧ ∀ os', fs.StatErr os' path = None → fs.OpenErr os' path = None →
      commands.LoadConfig os' commands.zero path written
      = (None, {| commands.GPHome := s; commands.Port := port |})
      ∧ commands.revertSource os' quote stateDir written
        = inr (Some (s, port)).
Proof.
  intros Hs Hport Hnone Hwrite path created written.
  assert (created
          = (None, fs.writes path
                     (temporaryConfigText (dq +:+ s +:+ dq) port) fs))
    as Hcreated.
  { unfold created, CreateTemporaryConfigFile. fold path. unfold path.
    rewrite Hnone. by apply WriteFile_completes. }
  assert (written = <[path := temporaryConfigText (dq +:+ s +:+ dq) port]> fs)
    as Hwritten.
  { unfold written. rewrite Hcreated. cbn [snd]. apply writes_final. }
  split; [by rewrite Hcreated|]. split; [exact Hwritten|].
  intros os' Hstat Hopen.
  assert (written !! path
          = Some (temporaryConfigText (dq +:+ s +:+ dq) port)) as Hfile
    by (rewrite Hwritten; apply lookup_insert_eq).
  assert (commands.LoadConfig os' commands.zero path written
          = (None, {| commands.GPHome := s; commands.Port := port |}))
    as Hload.
  { unfold commands.LoadConfig, fs.Open. rewrite Hopen, Hfile.
    by rewrite Load_temporaryConfigText. }
  split; [exact Hload|].
  unfold commands.revertSource. fold path.
  rewrite (PathExist_true os' path _ written Hstat Hfile).
  by rewrite Hload.
Qed.

Lemma temporary_config_round_trip_witness :
  let path := upgrade_GetConfigFile example.stateDir +:+ ".tmp" in
  let created :=
    CreateTemporaryConfigFile example.reliable example.quoted
      example.stateDir (dq +:+ "/usr/local/greenplum-db" +:+ dq) 5432 ∅ in
  let written := fs.final ∅ created.2 in
  (plain "/usr/local/greenplum-db" = true
   ∧ - 2147483648 ≤ 5432 ≤ 2147483647
   ∧ fs.PathExist example.reliable path ∅ = inr false
   ∧ fs.WriteFileErr example.reliable path = None)
  ∧ created.1 = None
  ∧ commands.LoadConfig example.reliable commands.zero path written
    = (None, {| commands.GPHome := "/usr/local/greenplum-db";
                commands.Port := 5432 |})
  ∧ commands.revertSource example.reliable example.quoted example.stateDir
      written
    = inr (Some ("/usr/local/greenplum-db", 5432)).
Proof.
  split; [split; [reflexivity|split; [lia|split; reflexivity]]|].
  destruct (temporary_config_round_trip example.reliable example.quoted
              example.stateDir "/usr/local/greenplum-db" 5432 ∅)
    as (Hnil & _ & Hload); [reflexivity|lia|reflexivity|reflexivity|].
  split; [exact Hnil|]. by apply (Hload example.reliable).
Defined.

(** ** Creating the configuration file once *)

(** X18: [CreateConfigFile] writes only when the look for the file finds
    none: if the write then does not fail, it returns nil and the file
    holds the record of its hub port, all other files being as before.
    After that a later call, with whatever port and whatever the operating
    system then answers, writes nothing and leaves that record: it returns
    nil, or the error of the look, wrapped. *)
Theorem CreateConfigFile_first_port_stays os quote stateDir first second
    (fs : fs.FS) :
  fs.PathExist os (upgrade_GetConfigFile stateDir) fs = inr false →
  fs.WriteFileErr os (upgrade_GetConfigFile stateDir) = None →
  let path := upgrade_GetConfigFile stateDir in
  let created := fs.final fs (CreateConfigFile os quote stateDir first fs).2 in
  (CreateConfigFile os quote stateDir first fs).1 = None
  ∧ created = <[path := configText first]> fs
  ∧ ∀ os',
      (CreateConfigFile os' quote stateDir second created).2 = []
      ∧ (fs.StatErr os' path = None →
         (CreateConfigFile os' quote stateDir second created).1 = None)
      ∧ (∀ e, fs.StatErr os' path = Some e →
           (CreateConfigFile os' quote stateDir second created).1
           = Some (Wrap ("checking configuration path " +:+ quote path
                         +:+ ": ") e)).
Proof.
  intros Hnone Hwrite path created.
  assert (CreateConfigFile os quote stateDir first fs
          = (None, fs.writes path (configText first) fs)) as Hfirst.
  { unfold CreateConfigFile. fold path. unfold path. rewrite Hnone.
    by apply WriteFile_completes. }
  assert (created = <[path := configText first]> fs) as ->.
  { unfold created. rewrite Hfirst. cbn [snd]. apply writes_final. }
  split; [by rewrite Hfirst|]. split; [done|].
  intros os'. unfold CreateConfigFile, fs.PathExist. fold path.
  destruct (fs.StatErr os' path) as [e|] eqn:Hstat.
  - split; [done|]. split; [done|]. by intros ? [= <-].
  - rewrite bool_decide_eq_true_2
      by (rewrite lookup_insert_eq; by eexists).
    done.
Qed.

Lemma CreateConfigFile_first_port_stays_witness :
  let path := upgrade_GetConfigFile example.stateDir in
  let created :=
    fs.final ∅ (CreateConfigFile example.reliable example.quoted
                  example.stateDir 7527 ∅).2 in
  (fs.PathExist example.reliable path ∅ = inr false
   ∧ fs.WriteFileErr example.reliable path = None)
  ∧ created = <[path := configText 7527]> ∅
  ∧ CreateConfigFile example.reliable example.quoted example.stateDir 7528
      created
    = (None, []).
Proof.
  split; [split; reflexivity|].
  destruct (CreateConfigFile_first_port_stays example.reliable example.quoted
              example.stateDir 7527 7528 ∅)
    as (_ & Hcreated & Hlater); [reflexivity|reflexivity|].
  split; [exact Hcreated|].
  destruct (Hlater example.reliable) as (Htrace & Hnil & _).
  specialize (Hnil eq_refl). cbv zeta in *.
  destruct (CreateConfigFile example.reliable example.quoted
              example.stateDir 7528 _) as [e trace].
  simpl in *. by subst.
Defined.

(** ** The fan-out when no database fails *)

(** When no generation fails, the shared [err] stays nil whatever the
    interleaving: no goroutine enters the branch that sends, and a
    goroutine past its assignment has filled its bar. *)
Lemma run_all_succeed generate databases schedule :
  (∀ d, d ∈ databases →
        generate d = {| commanders.gen_err := None;
                        commanders.gen_filled := true |}) →
  let st := commanders.run generate databases schedule in
  commanders.err st = None
  ∧ commanders.errChan st = []
  ∧ length (commanders.bars st) = length (commanders.pcs st)
  ∧ ∀ i, commanders.pcs st !! i ≠ Some commanders.AtSend
         ∧ (commanders.pcs st !! i = Some commanders.AtTest
            ∨ commanders.pcs st !! i = Some commanders.Finished
            → commanders.bars st !! i = Some true).
Proof.
  intros Hgen. unfold commanders.run.
  induction schedule as [|i schedule IH] using rev_ind.
  - simpl. split; [done|]. split; [done|].
    split; [by rewrite !length_fmap|].
    intros i. rewrite list_lookup_fmap.
    destruct (databases !! i); simpl; split; try done; by intros [|].
  - rewrite foldl_app. cbn [foldl].
    destruct IH as (Herr & Hchan & Hlen & Hpcs).
    remember (foldl (commanders.step generate databases)
                (commanders.launch databases) schedule) as st eqn:Hst.
    clear Hst. unfold commanders.step.
    destruct (commanders.pcs st !! i) as [[| | |]|] eqn:Hi;
      [destruct (databases !! i) as [d|] eqn:Hd| | | |];
      try done.
    + rewrite (Hgen d) by (by eapply list_elem_of_lookup_2). cbn.
      split; [done|]. split; [done|]. split; [by rewrite !length_insert|].
      intros j. destruct (decide (i = j)) as [<-|Hne].
      * apply lookup_lt_Some in Hi.
        rewrite !list_lookup_insert_eq by lia. done.
      * rewrite !list_lookup_insert_ne by done. apply Hpcs.
    + rewrite Herr. cbn.
      split; [done|]. split; [done|]. split; [by rewrite length_insert|].
      intros j. destruct (decide (i = j)) as [<-|Hne].
      * pose proof (lookup_lt_Some _ _ _ Hi).
        rewrite list_lookup_insert_eq by lia. split; [done|].
        intros _. apply Hpcs. by left.
      * rewrite list_lookup_insert_ne by done. apply Hpcs.
    + by destruct (Hpcs i) as [Hnot _].
Qed.

(** X19: although the goroutines of [GenerateDataMigrationScripts] share
    one [err], a run in which no database fails cannot go wrong: whatever
    the interleaving, once the goroutines have finished nothing has been
    sent on [errChan], every bar is filled, and the fan-out returns nil,
    over any number of databases. *)
Theorem generateFanout_all_succeed generate databases schedule result :
  (∀ d, d ∈ databases →
        generate d = {| commanders.gen_err := None;
                        commanders.gen_filled := true |}) →
  commanders.generateFanout generate databases schedule = Some result →
  result = Returns None
  ∧ commanders.errChan (commanders.run generate databases schedule) = [].
Proof.
  intros Hgen. unfold commanders.generateFanout.
  destruct (run_all_succeed generate databases schedule Hgen)
    as (_ & Hchan & Hlen & Hpcs).
  remember (commanders.run generate databases schedule) as st eqn:Hst.
  clear Hst. destruct (bool_decide _) eqn:Hfin; [|done].
  apply bool_decide_eq_true in Hfin.
  assert (forallb id (commanders.bars st) = true) as ->.
  { apply forallb_forall. intros b Hin. apply list_elem_of_In in Hin.
    apply list_elem_of_lookup in Hin as [i Hb].
    pose proof (lookup_lt_Some _ _ _ Hb) as Hlt. rewrite Hlen in Hlt.
    apply lookup_lt_is_Some in Hlt as [p Hp].
    rewrite Forall_forall in Hfin.
    pose proof (Hfin p (list_elem_of_lookup_2 _ _ _ Hp)) as ->.
    destruct (Hpcs i) as [_ Hbar]. rewrite Hbar in Hb by (by right).
    by injection Hb as <-. }
  rewrite Hchan. by intros [= <-].
Qed.

Lemma generateFanout_all_succeed_witness :
  (∀ d, d ∈ [example.database "postgres"; example.database "testdb"] →
        example.generateFailsFor "template0" d
        = {| commanders.gen_err := None; commanders.gen_filled := true |})
  ∧ commanders.generateFanout (example.generateFailsFor "template0")
      [example.database "postgres"; example.database "testdb"]
      [0; 1; 0; 1]%nat
    = Some (Returns None).
Proof.
  assert (∀ d, d ∈ [example.database "postgres"; example.database "testdb"] →
               example.generateFailsFor "template0" d
               = {| commanders.gen_err := None;
                    commanders.gen_filled := true |}) as Hgen.
  { intros d Hd. apply elem_of_cons in Hd as [->|Hd]; [reflexivity|].
    apply list_elem_of_singleton in Hd as ->. reflexivity. }
  split; [exact Hgen|].
  destruct (commanders.generateFanout (example.generateFailsFor "template0")
              [example.database "postgres"; example.database "testdb"]
              [0; 1; 0; 1]%nat) as [result|] eqn:Hrun;
    [|vm_compute in Hrun; discriminate Hrun].
  f_equal.
  exact (proj1 (generateFanout_all_succeed _ _ _ result Hgen Hrun)).
Defined.
